(** * Verification of [var.go] (package [env])

    A shallow embedding of the tag parser ([Var.Parse]), the value converter
    ([convert] and its strategies) and the resolution entry point
    ([NewVarWithFunc]) of [var.go], with the properties proved about them.

    Go strings are byte strings ([string]); [reflect.Type] is seen through
    the two observations the code makes of it, [String()] and [Kind()];
    [reflect.Value] is either the zero Value or a typed datum.  The Go
    standard library and the YAML decoder are outside the repository: what
    is simple and fixed ([strings.Split], [strconv.Atoi],
    [strconv.ParseBool], the ASCII path of [strings.ToUpper]) is written
    out, the rest ([time.ParseDuration], [yaml.Unmarshal], Unicode case
    mapping, [fmt]'s rendering of reflected values) is a parameter. *)

From Stdlib Require Import ZArith Ascii String List DecimalString.
From stdpp Require Import gmap strings list fin_maps.

Local Open Scope string_scope.
Local Open Scope Z_scope.

(** ** Strings *)

(** The double-quote byte, code 34. *)
Definition dquote : string := String "034"%char EmptyString.

(** [strings.Split(s, sep)] for a one-byte separator, the only use the
    source makes of it: every occurrence of [sep] ends a piece, and the
    result always has at least one element. *)
Fixpoint strings_Split (s : string) (sep : ascii) : list string :=
  match s with
  | EmptyString => [EmptyString]
  | String c rest =>
      if Ascii.eqb c sep then EmptyString :: strings_Split rest sep
      else match strings_Split rest sep with
           | [] => [String c EmptyString]
           | piece :: pieces => String c piece :: pieces
           end
  end.

Definition is_lower (c : ascii) : bool :=
  (97 <=? Z.of_nat (nat_of_ascii c)) && (Z.of_nat (nat_of_ascii c) <=? 122).

(** [utf8.RuneSelf = 0x80]: bytes below it are one-byte runes. *)
Definition is_ascii_byte (c : ascii) : bool :=
  Z.of_nat (nat_of_ascii c) <? 128.

Definition upper_byte (c : ascii) : ascii :=
  if is_lower c then ascii_of_nat (nat_of_ascii c - 32) else c.

Fixpoint map_bytes (f : ascii -> ascii) (s : string) : string :=
  match s with
  | EmptyString => EmptyString
  | String c rest => String (f c) (map_bytes f rest)
  end.

Fixpoint forallb_bytes (p : ascii -> bool) (s : string) : bool :=
  match s with
  | EmptyString => true
  | String c rest => p c && forallb_bytes p rest
  end.

Definition isASCII (s : string) : bool := forallb_bytes is_ascii_byte s.

(** [strings.ToUpper]: an all-ASCII string is upper-cased byte by byte;
    any other string goes through [strings.Map(unicode.ToUpper, s)], which
    depends on the Unicode tables and is the parameter [unicode_upper]. *)
Definition strings_ToUpper (unicode_upper : string -> string) (s : string) : string :=
  if isASCII s then map_bytes upper_byte s else unicode_upper s.

(** No byte of [s] is an ASCII lower-case letter. *)
Definition no_lower (s : string) : bool :=
  forallb_bytes (fun c => negb (is_lower c)) s.

(** The byte [sep] does not occur in [s]. *)
Definition no_byte (sep : ascii) (s : string) : bool :=
  forallb_bytes (fun c => negb (Ascii.eqb c sep)) s.

(** ** Reflection: kinds, types, values *)

(** [reflect.Kind], in the order of the Go declaration. *)
Inductive Kind :=
  | Invalid_kind | Bool | Int | Int8 | Int16 | Int32 | Int64
  | Uint | Uint8 | Uint16 | Uint32 | Uint64 | Uintptr
  | Float32 | Float64 | Complex64 | Complex128
  | Array | Chan | Func | Interface | Map | Ptr | Slice | String_kind
  | Struct | UnsafePointer.

Global Instance Kind_eq_dec : EqDecision Kind.
Proof. solve_decision. Defined.

(** [Kind.String()]. *)
Definition Kind_String (k : Kind) : string :=
  match k with
  | Invalid_kind => "invalid" | Bool => "bool" | Int => "int"
  | Int8 => "int8" | Int16 => "int16" | Int32 => "int32" | Int64 => "int64"
  | Uint => "uint" | Uint8 => "uint8" | Uint16 => "uint16"
  | Uint32 => "uint32" | Uint64 => "uint64" | Uintptr => "uintptr"
  | Float32 => "float32" | Float64 => "float64"
  | Complex64 => "complex64" | Complex128 => "complex128"
  | Array => "array" | Chan => "chan" | Func => "func"
  | Interface => "interface" | Map => "map" | Ptr => "ptr"
  | Slice => "slice" | String_kind => "string" | Struct => "struct"
  | UnsafePointer => "unsafe.Pointer"
  end.

(** A [reflect.Type], through the two methods the code calls on it. *)
Record reflect_Type := { Type_String : string; Type_Kind : Kind }.

Global Instance Type_eq_dec : EqDecision reflect_Type.
Proof. solve_decision. Defined.

Definition string_type : reflect_Type := {| Type_String := "string"; Type_Kind := String_kind |}.
Definition int_type : reflect_Type := {| Type_String := "int"; Type_Kind := Int |}.
Definition bool_type : reflect_Type := {| Type_String := "bool"; Type_Kind := Bool |}.
Definition Duration_type : reflect_Type := {| Type_String := "time.Duration"; Type_Kind := Int64 |}.
(** [reflect.TypeOf(reflect.Int)]: the type [reflect.Kind] itself. *)
Definition Kind_type : reflect_Type := {| Type_String := "reflect.Kind"; Type_Kind := Uint |}.

(** What a value holds.  Strings, integers of every width and booleans are
    written out; [Y] stands for everything else (floats, slices, maps,
    structs, ...), which only the decoder produces. *)
Inductive datum (Y : Type) :=
  | DString (s : string)
  | DInt (i : Z)
  | DBool (b : bool)
  | DOther (y : Y).
Arguments DString {Y} s.
Arguments DInt {Y} i.
Arguments DBool {Y} b.
Arguments DOther {Y} y.

(** A [reflect.Value]: [Invalid] is the zero Value, [reflect.ValueOf(nil)];
    every other Value carries its dynamic type. *)
Inductive reflect_Value (Y : Type) :=
  | Invalid
  | Valid (t : reflect_Type) (d : datum Y).
Arguments Invalid {Y}.
Arguments Valid {Y} t d.

(** [value == reflect.ValueOf(nil)]: struct comparison with the zero Value. *)
Definition is_nil {Y} (v : reflect_Value Y) : bool :=
  match v with Invalid => true | Valid _ _ => false end.

(** ** Errors *)

(** The error values the package returns: its own [errConversion], and
    the text errors of [fmt.Errorf] and of the standard library. *)
Inductive error :=
  | errConversion (Value_ : string) (Type__ : string)
  | errorString (msg : string).

Definition conversionError (v t : string) : error := errConversion v t.

(** The [Error()] method of [errConversion], and the text of any other error. *)
Definition Error (e : error) : string :=
  match e with
  | errConversion v t =>
      "could not convert value " ++ dquote ++ v ++ dquote ++ " into " ++ t ++ " type"
  | errorString msg => msg
  end.

(** ** [strconv] *)

Definition is_digit (c : ascii) : bool :=
  (48 <=? Z.of_nat (nat_of_ascii c)) && (Z.of_nat (nat_of_ascii c) <=? 57).

(** The value of a run of decimal digits, [None] on any other byte. *)
Fixpoint digits_value (s : string) (acc : Z) : option Z :=
  match s with
  | EmptyString => Some acc
  | String c rest =>
      if is_digit c
      then digits_value rest (acc * 10 + (Z.of_nat (nat_of_ascii c) - 48))
      else None
  end.

(** [strconv.Atoi] on a platform with 64-bit [int]: an optional sign, then
    at least one decimal digit, the value within the range of [int].
    [None] stands for a non-nil error (syntax or range). *)
Definition strconv_Atoi (s : string) : option Z :=
  let '(neg, body) :=
    match s with
    | String "-"%char rest => (true, rest)
    | String "+"%char rest => (false, rest)
    | _ => (false, s)
    end in
  match body with
  | EmptyString => None
  | _ =>
      match digits_value body 0 with
      | Some n =>
          let v := if neg then - n else n in
          if (- 2 ^ 63 <=? v) && (v <=? 2 ^ 63 - 1) then Some v else None
      | None => None
      end
  end.

(** [strconv.ParseBool]: exactly the twelve spellings of the Go table. *)
Definition strconv_ParseBool (s : string) : option bool :=
  if List.existsb (String.eqb s) ["1"; "t"; "T"; "TRUE"; "true"; "True"] then Some true
  else if List.existsb (String.eqb s) ["0"; "f"; "F"; "FALSE"; "false"; "False"] then Some false
  else None.

(** ** The descriptor *)

(** [type Var struct]. *)
Record Var (Y : Type) := mkVar {
  Name : string;
  Key : string;
  Type_ : reflect_Type;
  Value : reflect_Value Y;
  Required : bool;
  Decode : string;
  Default : reflect_Value Y;
  Options : list (reflect_Value Y)
}.
Arguments mkVar {Y}.
Arguments Name {Y}.
Arguments Key {Y}.
Arguments Type_ {Y}.
Arguments Value {Y}.
Arguments Required {Y}.
Arguments Decode {Y}.
Arguments Default {Y}.
Arguments Options {Y}.

(** The part of a [reflect.StructField] that [Parse] reads: its name, its
    type and the result of [field.Tag.Get("env")]. *)
Record StructField := { field_Name : string; field_Type : reflect_Type; field_Tag_env : string }.

(** A function either returns or panics. *)
Inductive outcome (A : Type) :=
  | Returns (a : A)
  | Panics.
Arguments Returns {A} a.
Arguments Panics {A}.

(** What a run leaves behind besides its result: the text written to
    standard output ([fmt.Print]) and, for [Parse], the conversions it
    asked for, in order. *)
Inductive event :=
  | Print (text : string)
  | Convert (t : reflect_Type) (value decode : string).

(** An event that is printed text. *)
Definition is_Print (ev : event) : Prop :=
  match ev with Print _ => True | Convert _ _ _ => False end.

(** The conversions recorded in a trace all use type [t] and strategy [d]. *)
Definition converts_with (t : reflect_Type) (d : string) (tr : list event) : Prop :=
  forall t' value decode, Convert t' value decode ∈ tr -> t' = t /\ decode = d.

(** ** Collaborators outside the repository *)

Class Externals (Y : Type) := {
  (** [strings.Map(unicode.ToUpper, s)] on a string with a non-ASCII byte. *)
  unicode_upper : string -> string;
  (** [time.ParseDuration]: the duration in nanoseconds and the error. *)
  time_ParseDuration : string -> Z * option error;
  (** [yaml.Unmarshal] into a fresh value of the given type: the decoded
      datum, or the decoder's error. *)
  yaml_Unmarshal : reflect_Type -> string -> datum Y + error;
  (** The zero value of a type that is not a string, an integer or a
      boolean. *)
  zero_other : reflect_Type -> Y;
  (** Go's [==] on two interface values of one dynamic type, when they are
      not both strings, integers or booleans; [None] is the run-time panic
      on an uncomparable type. *)
  other_eq : reflect_Type -> datum Y -> datum Y -> option bool;
  (** [fmt]'s rendering under the verb v of a [reflect.Value] operand and
      of a slice of them. *)
  fmt_v_Value : reflect_Value Y -> string;
  fmt_v_Values : list (reflect_Value Y) -> string;
  (** The order in which [range] visits a map: unspecified in Go. *)
  range_order : gmap string string -> list (string * string);
  (** [os.Getenv]. *)
  os_Getenv : string -> string
}.

Section Env.

Context {Y : Type} {E : Externals Y}.

Local Abbreviation rvalue := (reflect_Value Y).
Local Abbreviation result := (rvalue * option error * list event)%type.

(** ** [reflect] constructors used by the source *)

Definition reflect_ValueOf_string (s : string) : rvalue := Valid string_type (DString s).
Definition reflect_ValueOf_int (i : Z) : rvalue := Valid int_type (DInt i).
Definition reflect_ValueOf_bool (b : bool) : rvalue := Valid bool_type (DBool b).
Definition reflect_ValueOf_Duration (d : Z) : rvalue := Valid Duration_type (DInt d).

(** [reflect.Zero(t)]. *)
Definition reflect_Zero (t : reflect_Type) : rvalue :=
  Valid t
    match Type_Kind t with
    | String_kind => DString ""
    | Bool => DBool false
    | Int | Int8 | Int16 | Int32 | Int64
    | Uint | Uint8 | Uint16 | Uint32 | Uint64 | Uintptr => DInt 0
    | _ => DOther (zero_other t)
    end.

(** [s.Interface() == v.Interface()]: [Interface()] panics on the zero
    Value; values of different dynamic types are unequal; values of one
    type are compared by content. *)
Definition Interface_eq (s v : rvalue) : option bool :=
  match s, v with
  | Invalid, _ | _, Invalid => None
  | Valid ts ds, Valid tv dv =>
      if decide (ts = tv) then
        match ds, dv with
        | DString x, DString y => Some (String.eqb x y)
        | DInt x, DInt y => Some (x =? y)
        | DBool x, DBool y => Some (Bool.eqb x y)
        | _, _ => other_eq ts ds dv
        end
      else Some false
  end.

(** ** The value converter *)

Definition parseYaml (t : reflect_Type) (value : string) : result :=
  match yaml_Unmarshal t value with
  | inr err =>
      (Invalid,
       Some (conversionError value
               ("yaml conversion error; Kind(): " ++ Kind_String (Type_Kind t)
                ++ "; Type(): " ++ Type_String t)),
       [Print (Error err)])
  | inl d => (Valid t d, None, [])
  end.

Definition parseSlice (t : reflect_Type) (value : string) : result := parseYaml t value.
Definition parseMap (t : reflect_Type) (value : string) : result := parseYaml t value.

Definition parseInt (value : string) : result :=
  if String.eqb value "" then (reflect_Zero Kind_type, None, [])
  else match strconv_Atoi value with
       | None => (Invalid, Some (conversionError value "int"), [])
       | Some i => (reflect_ValueOf_int i, None, [])
       end.

Definition parseBool (value : string) : result :=
  if String.eqb value "" then (reflect_Zero Kind_type, None, [])
  else match strconv_ParseBool value with
       | None => (Invalid, Some (conversionError value "bool"), [])
       | Some b => (reflect_ValueOf_bool b, None, [])
       end.

Definition convertWithYaml (t : reflect_Type) (value : string) : result := parseYaml t value.

Definition convertWithType (t : reflect_Type) (value : string) : result :=
  if String.eqb (Type_String t) "time.Duration" then
    let '(r, err) := time_ParseDuration value in
    (reflect_ValueOf_Duration r, err, [])
  else (Invalid, Some (conversionError value ("unsupported type " ++ Type_String t)), []).

Definition convertWithKind (t : reflect_Type) (value : string) : result :=
  if String.eqb value "" then (Invalid, None, [])
  else match Type_Kind t with
       | String_kind => (reflect_ValueOf_string value, None, [])
       | Int => parseInt value
       | Bool => parseBool value
       | Slice => parseSlice t value
       | Map => parseMap t value
       | k => (Invalid, Some (conversionError value ("unsupported " ++ Kind_String k)), [])
       end.

Definition convert (t : reflect_Type) (value decode : string) : result :=
  if String.eqb value "" then (Invalid, None, [])
  else if String.eqb decode "" then
    let '(val, err, out) := convertWithType t value in
    match err with
    | Some _ =>
        let '(val', err', out') := convertWithKind t value in
        (val', err', (out ++ out')%list)
    | None => (val, err, out)
    end
  else if String.eqb decode "kind" then convertWithKind t value
  else if String.eqb decode "type" then convertWithType t value
  else if String.eqb decode "yaml" then convertWithYaml t value
  else (Invalid, Some (conversionError decode "unsupported decode"), []).

(** The kinds that have a case in the [switch] of [convertWithKind]. *)
Definition kind_supported (k : Kind) : bool :=
  match k with
  | String_kind | Int | Bool | Slice | Map => true
  | _ => false
  end.

(** The tokens that have a case in the [switch] of [convert]. *)
Definition decode_known (decode : string) : bool :=
  String.eqb decode "" || String.eqb decode "kind" || String.eqb decode "type"
  || String.eqb decode "yaml".

(** ** Setters *)

Local Abbreviation Var' := (Var Y).

Definition SetValue (v : Var') (value : rvalue) : Var' :=
  mkVar (Name v) (Key v) (Type_ v) value (Required v) (Decode v) (Default v) (Options v).
Definition SetName (v : Var') (value : string) : Var' :=
  mkVar value (Key v) (Type_ v) (Value v) (Required v) (Decode v) (Default v) (Options v).
Definition SetType (v : Var') (value : reflect_Type) : Var' :=
  mkVar (Name v) (Key v) value (Value v) (Required v) (Decode v) (Default v) (Options v).
Definition SetRequired (v : Var') (value : bool) : Var' :=
  mkVar (Name v) (Key v) (Type_ v) (Value v) value (Decode v) (Default v) (Options v).
Definition SetDecode (v : Var') (value : string) : Var' :=
  mkVar (Name v) (Key v) (Type_ v) (Value v) (Required v) value (Default v) (Options v).
Definition SetDefault (v : Var') (value : rvalue) : Var' :=
  mkVar (Name v) (Key v) (Type_ v) (Value v) (Required v) (Decode v) value (Options v).
Definition SetOptions (v : Var') (values : list rvalue) : Var' :=
  mkVar (Name v) (Key v) (Type_ v) (Value v) (Required v) (Decode v) (Default v) values.
Definition SetKey (v : Var') (value : string) : Var' :=
  mkVar (Name v) (strings_ToUpper unicode_upper value) (Type_ v) (Value v)
        (Required v) (Decode v) (Default v) (Options v).

(** ** The tag parser *)

(** One pass of the first loop of [Parse]: the directive name is the text
    before the first [=], its value the text between the first and the
    second [=], or empty when the token has no [=]. *)
Definition tagParam_entry (tagParam : string) : string * string :=
  let option := strings_Split tagParam "="%char in
  (hd "" option, if (1 <? Z.of_nat (length option)) then nth 1 option "" else "").

(** [tagParamsMap] after the first loop: a later token overwrites an
    earlier one of the same name. *)
Definition tagParamsMap (tag : string) : gmap string string :=
  foldl (fun m tagParam => <[(tagParam_entry tagParam).1 := (tagParam_entry tagParam).2]> m)
        ∅ (strings_Split tag " "%char).

(** The loop of the [options] case: elements are converted in order and
    the first failure ends the loop with its error. *)
Fixpoint Parse_options (t : reflect_Type) (decode : string) (in_ : list string)
  : (list rvalue + error) * list event :=
  match in_ with
  | [] => (inl [], [])
  | val :: rest =>
      let '(v1, err, out) := convert t val decode in
      match err with
      | Some e => (inr e, Convert t val decode :: out)
      | None =>
          let '(r, tr) := Parse_options t decode rest in
          (match r with inl values => inl (v1 :: values) | inr e => inr e end,
           (Convert t val decode :: out ++ tr)%list)
      end
  end.

(** The body of the [switch key] of the second loop. *)
Definition Parse_directive (key value : string) (v : Var') : Var' * option error * list event :=
  if String.eqb key "key" then (SetKey v value, None, [])
  else if String.eqb key "required" then (SetRequired v true, None, [])
  else if String.eqb key "decode" then (SetDecode v value, None, [])
  else if String.eqb key "default" then
    let '(d, err, out) := convert (Type_ v) value (Decode v) in
    match err with
    | Some e => (v, Some e, Convert (Type_ v) value (Decode v) :: out)
    | None => (SetDefault v d, None, Convert (Type_ v) value (Decode v) :: out)
    end
  else if String.eqb key "options" then
    match Parse_options (Type_ v) (Decode v) (strings_Split value ","%char) with
    | (inr e, tr) => (v, Some e, tr)
    | (inl values, tr) => (SetOptions v values, None, tr)
    end
  else (v, None, []).

(** The second loop, over the entries in the order [range] visits them;
    an error returns at once. *)
Fixpoint Parse_range (entries : list (string * string)) (v : Var')
  : Var' * option error * list event :=
  match entries with
  | [] => (v, None, [])
  | (key, value) :: rest =>
      let '(v', err, tr) := Parse_directive key value v in
      match err with
      | Some e => (v', Some e, tr)
      | None =>
          let '(v'', err', tr') := Parse_range rest v' in
          (v'', err', (tr ++ tr')%list)
      end
  end.

(** [(v *Var) Parse(field)]: the receiver after the call, the error
    returned, and the trace. *)
Definition Parse (v : Var') (field : StructField) : Var' * option error * list event :=
  let v := SetName v (field_Name field) in
  let v := SetType v (field_Type field) in
  let v := SetKey v (Name v) in
  let tag := field_Tag_env field in
  if String.eqb tag "" then (v, None, [])
  else
    let tagParamsMap := tagParamsMap tag in
    match tagParamsMap !! "decode" with
    | Some value => Parse_range (range_order (delete "decode" tagParamsMap)) (SetDecode v value)
    | None => Parse_range (range_order tagParamsMap) v
    end.

(** ** Resolution *)

Fixpoint optionsContains_loop (options : list rvalue) (s : rvalue) : option bool :=
  match options with
  | [] => Some false
  | v :: rest =>
      match Interface_eq s v with
      | None => None
      | Some true => Some true
      | Some false => optionsContains_loop rest s
      end
  end.

(** [(v *Var) optionsContains(s)]; [None] is a panic. *)
Definition optionsContains (v : Var') (s : rvalue) : option bool :=
  optionsContains_loop (Options v) s.

(** [&Var{}].  Its [Type] is the nil interface, which has no counterpart
    in [reflect_Type]; the placeholder is overwritten by [Parse] before
    anything reads it. *)
Definition Var_zero : Var' :=
  mkVar "" "" {| Type_String := ""; Type_Kind := Invalid_kind |} Invalid false "" Invalid [].

Definition required_error (key : string) : error := errorString (key ++ " required").

Definition option_error (key : string) (value : rvalue) (options : list rvalue) : error :=
  errorString (key ++ "=" ++ dquote ++ fmt_v_Value value ++ dquote
               ++ " not in allowed options: " ++ fmt_v_Values options).

(** Lines 64 to 70: the options check and the final return. *)
Definition check_options (newVar : Var') : outcome (Var' * option error) :=
  if (0 <? Z.of_nat (length (Options newVar))) then
    match optionsContains newVar (Value newVar) with
    | None => Panics
    | Some false =>
        Returns (newVar, Some (option_error (Key newVar) (Value newVar) (Options newVar)))
    | Some true => Returns (newVar, None)
    end
  else Returns (newVar, None).

(** [NewVarWithFunc(field, get)].  The error [Parse] returns is dropped
    (line 36 ignores the result of the call). *)
Definition NewVarWithFunc (field : StructField) (get : string -> string)
  : outcome (Var' * option error) * list event :=
  let '(newVar, _, tr) := Parse Var_zero field in
  let '(value, err, out) := convert (Type_ newVar) (get (Key newVar)) (Decode newVar) in
  let tr := (tr ++ Convert (Type_ newVar) (get (Key newVar)) (Decode newVar) :: out)%list in
  match err with
  | Some e => (Returns (newVar, Some e), tr)
  | None =>
      let newVar := SetValue newVar value in
      if is_nil value then
        if Required newVar then (Returns (newVar, Some (required_error (Key newVar))), tr)
        else if negb (is_nil (Default newVar))
             then (check_options (SetValue newVar (Default newVar)), tr)
             else (check_options (SetValue newVar (reflect_Zero (Type_ newVar))), tr)
      else (check_options newVar, tr)
  end.

(** The value lines 55 to 61 put in place of an absent one: the default
    of the descriptor if it has one, the zero value of its type if not. *)
Definition substituted_value (v : Var') : rvalue :=
  if negb (is_nil (Default v)) then Default v else reflect_Zero (Type_ v).

(** The value the descriptor holds when the options are checked, given the
    converted lookup result. *)
Definition final_value (v : Var') (value : rvalue) : rvalue :=
  if is_nil value then substituted_value v else value.

(** [NewVar(field)]: resolution against the process environment. *)
Definition NewVar (field : StructField) : outcome (Var' * option error) * list event :=
  NewVarWithFunc field os_Getenv.

End Env.

(** ** A reference environment

    One concrete choice of the collaborators, on which the theorems are
    exercised: ASCII-only case mapping, a duration parser for the Go
    grammar, a decoder for flow sequences of integers, and the key order of
    the map representation as the iteration order. *)

Module Reference.

(** The digits at the head of [s], their value, and the rest. *)
Fixpoint leadingInt (s : string) (x : Z) : Z * string :=
  match s with
  | String c rest =>
      if is_digit c then leadingInt rest (x * 10 + (Z.of_nat (nat_of_ascii c) - 48))
      else (x, s)
  | EmptyString => (x, s)
  end.

(** The bytes of a unit: everything up to the next digit or period. *)
Fixpoint leadingUnit (s : string) : string * string :=
  match s with
  | String c rest =>
      if is_digit c || Ascii.eqb c "."%char then (EmptyString, s)
      else let '(u, rem) := leadingUnit rest in (String c u, rem)
  | EmptyString => (EmptyString, s)
  end.

Definition micro_sign : string := String "194"%char (String "181"%char "s").
Definition greek_mu : string := String "206"%char (String "188"%char "s").

Definition unitMap (u : string) : option Z :=
  if String.eqb u "ns" then Some 1
  else if String.eqb u "us" || String.eqb u micro_sign || String.eqb u greek_mu then Some 1000
  else if String.eqb u "ms" then Some 1000000
  else if String.eqb u "s" then Some 1000000000
  else if String.eqb u "m" then Some 60000000000
  else if String.eqb u "h" then Some 3600000000000
  else None.

Definition invalid_duration (orig : string) : Z * option error :=
  (0, Some (errorString ("time: invalid duration " ++ dquote ++ orig ++ dquote))).

(** The loop of [time.ParseDuration] over the components of the text;
    [fuel] bounds the number of components.  A fractional component is
    evaluated exactly. *)
Fixpoint ParseDuration_loop (fuel : nat) (orig s : string) (d : Z) : Z + option error :=
  match fuel with
  | O => inr (snd (invalid_duration orig))
  | S fuel' =>
      match s with
      | EmptyString => inl d
      | String c _ =>
          if negb (is_digit c || Ascii.eqb c "."%char) then inr (snd (invalid_duration orig))
          else
            let '(v, s1) := leadingInt s 0 in
            let pre := negb (Nat.eqb (String.length s) (String.length s1)) in
            let '(f, scale, s2, post) :=
              match s1 with
              | String "."%char s1' =>
                  let '(f, s2) := leadingInt s1' 0 in
                  (f, 10 ^ Z.of_nat (String.length s1' - String.length s2), s2,
                   negb (Nat.eqb (String.length s1') (String.length s2)))
              | _ => (0, 1, s1, false)
              end in
            if 2 ^ 63 <? v then inr (snd (invalid_duration orig))
            else if negb pre && negb post then inr (snd (invalid_duration orig))
            else
              let '(u, s3) := leadingUnit s2 in
              if String.eqb u "" then
                inr (Some (errorString ("time: missing unit in duration " ++ dquote ++ orig ++ dquote)))
              else match unitMap u with
                   | None =>
                       inr (Some (errorString ("time: unknown unit " ++ dquote ++ u ++ dquote
                                               ++ " in duration " ++ dquote ++ orig ++ dquote)))
                   | Some unit =>
                       let v' := v * unit + (f * unit) / scale in
                       if (2 ^ 63 / unit <? v) || (2 ^ 63 <? v') || (2 ^ 63 <? d + v')
                       then inr (snd (invalid_duration orig))
                       else ParseDuration_loop fuel' orig s3 (d + v')
                   end
      end
  end.

Definition ParseDuration (orig : string) : Z * option error :=
  let '(neg, s) :=
    match orig with
    | String "-"%char rest => (true, rest)
    | String "+"%char rest => (false, rest)
    | _ => (false, orig)
    end in
  if String.eqb s "0" then (0, None)
  else if String.eqb s "" then invalid_duration orig
  else match ParseDuration_loop (S (String.length s)) orig s 0 with
       | inr err => (0, err)
       | inl d =>
           if neg then (- d, None)
           else if 2 ^ 63 - 1 <? d then invalid_duration orig
           else (d, None)
       end.

(** A flow sequence of integers, as in [[1,2,3]]. *)
Definition Unmarshal (t : reflect_Type) (value : string) : datum (list Z) + error :=
  let bad := inr (errorString "yaml: unmarshal errors") in
  match Type_Kind t, value with
  | Slice, String "["%char body =>
      match rev (list_ascii_of_string body) with
      | "]"%char :: inner =>
          let items := strings_Split (string_of_list_ascii (rev inner)) ","%char in
          match mapM strconv_Atoi items with
          | Some zs => inl (DOther zs)
          | None => bad
          end
      | _ => bad
      end
  | _, _ => bad
  end.

Definition render_Z (i : Z) : string := NilZero.string_of_int (Z.to_int i).

(** The text of a value printed as an operand of its own. *)
Definition render (v : reflect_Value (list Z)) : string :=
  match v with
  | Invalid => "<invalid reflect.Value>"
  | Valid _ (DString s) => s
  | Valid _ (DInt i) => render_Z i
  | Valid _ (DBool b) => if b then "true" else "false"
  | Valid _ (DOther zs) => "[" ++ String.concat " " (map render_Z zs) ++ "]"
  end.

(** The text of a value printed as an element of a slice of Values:
    [Value.String()]. *)
Definition render_element (v : reflect_Value (list Z)) : string :=
  match v with
  | Invalid => "<invalid Value>"
  | Valid _ (DString s) => s
  | Valid t _ => "<" ++ Type_String t ++ " Value>"
  end.

Definition externals : Externals (list Z) := {|
  unicode_upper := map_bytes upper_byte;
  time_ParseDuration := ParseDuration;
  yaml_Unmarshal := Unmarshal;
  zero_other := fun _ => [];
  other_eq := fun _ _ _ => None;
  fmt_v_Value := render;
  fmt_v_Values := fun vs => "[" ++ String.concat " " (map render_element vs) ++ "]";
  range_order := map_to_list;
  os_Getenv := fun _ => ""
|}.

(** The no-value lookup: every key is absent. *)
Definition absent : string -> string := fun _ => "".

(** Fields on which the theorems are exercised. *)
Definition field_of (name : string) (t : reflect_Type) (tag : string) : StructField :=
  {| field_Name := name; field_Type := t; field_Tag_env := tag |}.

Definition parsed (f : StructField) : Var (list Z) * option error * list event :=
  Parse (E := externals) Var_zero f.

Definition resolved (f : StructField) (get : string -> string)
  : outcome (Var (list Z) * option error) :=
  (NewVarWithFunc (E := externals) f get).1.

End Reference.

(** * Properties *)

Section Properties.

Context {Y : Type} {E : Externals Y}.

(** [range] visits each entry of the map exactly once. *)
Hypothesis range_order_perm : forall m, range_order m ≡ₚ map_to_list m.

(** The Unicode path of [strings.ToUpper] never yields an ASCII lower-case
    letter: [unicode.ToUpper] maps those to upper case and maps no other
    rune onto them. *)
Hypothesis unicode_upper_no_lower : forall s, no_lower (unicode_upper s) = true.

Local Abbreviation rvalue := (reflect_Value Y).
Local Abbreviation Var' := (Var Y).

(** ** The converter *)

Lemma eqb_empty_false (s : string) : s <> "" -> String.eqb s "" = false.
Proof. intros Hs. apply String.eqb_neq. exact Hs. Qed.

(** C5.  Whatever the target type and the decode token, recognised or not,
    [convert] on the empty string returns the zero Value and a nil error
    (and prints nothing). *)
Theorem convert_empty_is_no_value (t : reflect_Type) (decode : string) :
  convert t "" decode = (Invalid, None, []).
Proof. reflexivity. Qed.

(** Under the unset strategy a failure of the type-based conversion, of
    whatever cause, hands over to the kind-based one. *)
Lemma convert_unset_fallback (t : reflect_Type) (value : string) val e out :
  value <> "" ->
  convertWithType t value = (val, Some e, out) ->
  convert t value "" =
    (let '(val', err', out') := convertWithKind t value in (val', err', (out ++ out')%list)).
Proof.
  intros Hne Hty. unfold convert.
  rewrite (eqb_empty_false _ Hne). simpl. rewrite Hty. reflexivity.
Qed.

(** C1 (the code departs from it).  On a duration-typed field with the
    unset strategy, a text that [time.ParseDuration] rejects does not
    surface the parser's error: the kind-based fallback runs and it is the
    fallback's "unsupported int64" that the caller receives. *)
Theorem convert_unset_duration_error_is_replaced (value : string) (d : Z) (e : error) :
  value <> "" ->
  time_ParseDuration value = (d, Some e) ->
  convert Duration_type value "" =
    (Invalid, Some (errConversion value "unsupported int64"), []).
Proof.
  intros Hne Hpd.
  rewrite (convert_unset_fallback Duration_type value (reflect_ValueOf_Duration d) e []); [|done|].
  - unfold convertWithKind. rewrite (eqb_empty_false _ Hne). reflexivity.
  - unfold convertWithType. simpl. rewrite Hpd. reflexivity.
Qed.

(** ** Upper-casing *)

Lemma upper_byte_not_lower (c : ascii) : is_lower (upper_byte c) = false.
Proof. destruct c as [[] [] [] [] [] [] [] []]; reflexivity. Qed.

Lemma map_upper_no_lower (s : string) : no_lower (map_bytes upper_byte s) = true.
Proof.
  unfold no_lower. induction s as [|c s IH]; simpl; [reflexivity|].
  rewrite upper_byte_not_lower. exact IH.
Qed.

Lemma ToUpper_no_lower (s : string) : no_lower (strings_ToUpper unicode_upper s) = true.
Proof.
  unfold strings_ToUpper. destruct (isASCII s).
  - apply map_upper_no_lower.
  - apply unicode_upper_no_lower.
Qed.

(** ** One directive *)

(** Case analysis on the [switch key] of the second loop. *)
Ltac case_key k :=
  destruct (String.eqb k "key") eqn:?Hkey;
  [apply String.eqb_eq in Hkey; subst k
  |destruct (String.eqb k "required") eqn:?Hrequired;
   [apply String.eqb_eq in Hrequired; subst k
   |destruct (String.eqb k "decode") eqn:?Hdecode;
    [apply String.eqb_eq in Hdecode; subst k
    |destruct (String.eqb k "default") eqn:?Hdefault;
     [apply String.eqb_eq in Hdefault; subst k
     |destruct (String.eqb k "options") eqn:?Hoptions;
      [apply String.eqb_eq in Hoptions; subst k|]]]]].

(** Run the conversions a directive makes and read off its result. *)
Ltac step_directive H :=
  simpl in H;
  repeat match type of H with
         | context [convert ?t ?x ?d] =>
             let val := fresh "val" in let err := fresh "err" in let out := fresh "out" in
             let Hc := fresh "Hconv" in
             destruct (convert t x d) as [[val err] out] eqn:Hc; destruct err
         | context [Parse_options ?t ?d ?l] =>
             let r := fresh "r" in let tr := fresh "tr" in let Ho := fresh "Hopts" in
             destruct (Parse_options t d l) as [r tr] eqn:Ho; destruct r
         end;
  inversion H; subst; clear H.

Lemma Parse_directive_frame (k x : string) (v v' : Var') e tr :
  Parse_directive k x v = (v', e, tr) ->
  Name v' = Name v /\ Type_ v' = Type_ v /\ Value v' = Value v /\
  Key v' = (if String.eqb k "key" then strings_ToUpper unicode_upper x else Key v) /\
  Required v' = (Required v || String.eqb k "required") /\
  Decode v' = (if String.eqb k "decode" then x else Decode v).
Proof.
  unfold Parse_directive. intros H.
  case_key k; step_directive H; simpl; rewrite ?orb_true_r, ?orb_false_r; done.
Qed.

Lemma Parse_directive_Default (k x : string) (v v' : Var') e tr :
  Parse_directive k x v = (v', e, tr) ->
  Default v' =
    (if String.eqb k "default"
     then match convert (Type_ v) x (Decode v) with
          | (d, None, _) => d
          | (_, Some _, _) => Default v
          end
     else Default v).
Proof.
  unfold Parse_directive. intros H.
  case_key k; step_directive H; simpl; done.
Qed.

Lemma Parse_directive_Options (k x : string) (v v' : Var') e tr :
  Parse_directive k x v = (v', e, tr) ->
  Options v' =
    (if String.eqb k "options"
     then match Parse_options (Type_ v) (Decode v) (strings_Split x ","%char) with
          | (inl values, _) => values
          | (inr _, _) => Options v
          end
     else Options v).
Proof.
  unfold Parse_directive. intros H.
  case_key k; step_directive H; simpl; done.
Qed.

(** A directive fails only through a conversion it makes. *)
Lemma Parse_directive_error (k x : string) (v v' : Var') e tr :
  Parse_directive k x v = (v', e, tr) ->
  e = (if String.eqb k "default" then (convert (Type_ v) x (Decode v)).1.2
       else if String.eqb k "options"
            then match Parse_options (Type_ v) (Decode v) (strings_Split x ","%char) with
                 | (inr err, _) => Some err
                 | (inl _, _) => None
                 end
            else None).
Proof.
  unfold Parse_directive. intros H.
  case_key k; step_directive H; simpl; done.
Qed.

(** ** What a run prints and records *)

Lemma parseYaml_out t value : Forall is_Print (parseYaml t value).2.
Proof.
  unfold parseYaml. destruct (yaml_Unmarshal t value); simpl; repeat constructor.
Qed.

Lemma convertWithType_out t value : (convertWithType t value).2 = [].
Proof.
  unfold convertWithType. destruct (String.eqb _ _); [|reflexivity].
  destruct (time_ParseDuration value). reflexivity.
Qed.

Lemma convertWithKind_out t value : Forall is_Print (convertWithKind t value).2.
Proof.
  unfold convertWithKind, parseInt, parseBool, parseSlice, parseMap.
  destruct (String.eqb value ""); [constructor|].
  destruct (Type_Kind t); simpl; try constructor; try apply parseYaml_out.
  - destruct (strconv_ParseBool value); constructor.
  - destruct (strconv_Atoi value); constructor.
Qed.

(** [convert] leaves only printed text behind. *)
Lemma convert_out t value decode : Forall is_Print (convert t value decode).2.
Proof.
  unfold convert.
  destruct (String.eqb value ""); [constructor|].
  destruct (String.eqb decode "").
  { pose proof (convertWithType_out t value) as Ht.
    pose proof (convertWithKind_out t value) as Hk.
    destruct (convertWithType t value) as [[val err] out].
    destruct (convertWithKind t value) as [[val' err'] out'].
    simpl in *. subst out. destruct err; simpl; [exact Hk|constructor]. }
  destruct (String.eqb decode "kind"); [apply convertWithKind_out|].
  destruct (String.eqb decode "type"); [rewrite convertWithType_out; constructor|].
  destruct (String.eqb decode "yaml"); [apply parseYaml_out|constructor].
Qed.

Lemma converts_with_nil t d : converts_with t d [].
Proof. intros t' value decode Hin. inversion Hin. Qed.

Lemma converts_with_app t d tr tr' :
  converts_with t d tr -> converts_with t d tr' -> converts_with t d (tr ++ tr')%list.
Proof.
  intros H1 H2 t' value decode Hin. apply elem_of_app in Hin as [Hin|Hin]; eauto.
Qed.

Lemma converts_with_prints t d out : Forall is_Print out -> converts_with t d out.
Proof.
  intros Hout t' value decode Hin.
  rewrite Forall_forall in Hout. apply Hout in Hin. destruct Hin.
Qed.

Lemma converts_with_call t d x out :
  Forall is_Print out -> converts_with t d (Convert t x d :: out).
Proof.
  intros Hout t' value decode Hin. apply elem_of_cons in Hin as [Heq|Hin].
  - inversion Heq. done.
  - eapply converts_with_prints; eauto.
Qed.

Lemma Parse_options_trace t d in_ : converts_with t d (Parse_options t d in_).2.
Proof.
  induction in_ as [|val rest IH]; simpl; [apply converts_with_nil|].
  pose proof (convert_out t val d) as Hout.
  destruct (convert t val d) as [[v1 err] out]. simpl in Hout.
  destruct err; simpl; [by apply converts_with_call|].
  destruct (Parse_options t d rest) as [r tr]. simpl in *.
  apply (converts_with_app t d (Convert t val d :: out) tr); [by apply converts_with_call|done].
Qed.

Lemma Parse_directive_trace (k x : string) (v v' : Var') e tr :
  Parse_directive k x v = (v', e, tr) -> converts_with (Type_ v) (Decode v) tr.
Proof.
  unfold Parse_directive. intros H.
  pose proof (convert_out (Type_ v) x (Decode v)) as Hout.
  pose proof (Parse_options_trace (Type_ v) (Decode v) (strings_Split x ","%char)) as Hopt.
  case_key k; step_directive H; simpl in *;
    solve [apply converts_with_nil | by apply converts_with_call | done].
Qed.

(** ** The loop over the directives *)

(** Unfold one round of [Parse_range] in hypothesis [H]. *)
Ltac step_range H v1 e1 tr1 Hd :=
  simpl in H;
  match type of H with
  | context [Parse_directive ?k ?x ?v] =>
      destruct (Parse_directive k x v) as [[v1 e1] tr1] eqn:Hd
  end.

Lemma eqb_ne_false (k k' : string) : k <> k' -> String.eqb k k' = false.
Proof. intros Hne. by apply String.eqb_neq. Qed.

(** A field is left alone by the directives that do not name it. *)
Lemma Parse_range_frame (entries : list (string * string)) (v v' : Var') e tr :
  Parse_range entries v = (v', e, tr) ->
  Name v' = Name v /\ Type_ v' = Type_ v /\ Value v' = Value v /\
  ("key" ∉ entries.*1 -> Key v' = Key v) /\
  ("required" ∉ entries.*1 -> Required v' = Required v) /\
  ("decode" ∉ entries.*1 -> Decode v' = Decode v) /\
  ("default" ∉ entries.*1 -> Default v' = Default v) /\
  ("options" ∉ entries.*1 -> Options v' = Options v).
Proof.
  revert v v' e tr. induction entries as [|[k x] rest IH]; intros v v' e tr H.
  { inversion H. done. }
  step_range H v1 e1 tr1 Hd.
  pose proof (Parse_directive_frame _ _ _ _ _ _ Hd) as (HN & HT & HV & HK & HR & HD).
  pose proof (Parse_directive_Default _ _ _ _ _ _ Hd) as HDf.
  pose proof (Parse_directive_Options _ _ _ _ _ _ Hd) as HO.
  assert (Hstep :
    Name v1 = Name v /\ Type_ v1 = Type_ v /\ Value v1 = Value v /\
    ("key" <> k -> Key v1 = Key v) /\ ("required" <> k -> Required v1 = Required v) /\
    ("decode" <> k -> Decode v1 = Decode v) /\ ("default" <> k -> Default v1 = Default v) /\
    ("options" <> k -> Options v1 = Options v)).
  { repeat split; try done; intros Hne.
    - by rewrite HK, (eqb_ne_false k "key").
    - by rewrite HR, (eqb_ne_false k "required"), orb_false_r.
    - by rewrite HD, (eqb_ne_false k "decode").
    - by rewrite HDf, (eqb_ne_false k "default").
    - by rewrite HO, (eqb_ne_false k "options"). }
  clear HN HT HV HK HR HD HDf HO.
  destruct Hstep as (HN & HT & HV & HK & HR & HD & HDf & HO).
  assert (Hrest : exists e2 tr2, Parse_range rest v1 = (v', e2, tr2) \/ (v' = v1 /\ is_Some e1)).
  { destruct e1.
    - inversion H; subst. exists None, []. right. eauto.
    - destruct (Parse_range rest v1) as [[v2 e2] tr2]. inversion H; subst. eauto. }
  destruct Hrest as (e2 & tr2 & [Hr | [-> _]]).
  - apply IH in Hr as (HN' & HT' & HV' & HK' & HR' & HD' & HDf' & HO').
    rewrite fmap_cons. simpl.
    repeat split; try congruence; intros Hn; apply not_elem_of_cons in Hn as [Hn1 Hn2].
    + rewrite HK' by done. auto.
    + rewrite HR' by done. auto.
    + rewrite HD' by done. auto.
    + rewrite HDf' by done. auto.
    + rewrite HO' by done. auto.
  - rewrite fmap_cons. simpl.
    repeat split; try done; intros Hn; apply not_elem_of_cons in Hn as [Hn1 Hn2]; auto.
Qed.

(** Every conversion of the loop uses the type and the strategy the
    descriptor had when the loop began, provided no [decode] entry is left
    in the map. *)
Lemma Parse_range_trace (entries : list (string * string)) (v v' : Var') e tr :
  "decode" ∉ entries.*1 ->
  Parse_range entries v = (v', e, tr) ->
  converts_with (Type_ v) (Decode v) tr.
Proof.
  revert v v' e tr. induction entries as [|[k x] rest IH]; intros v v' e tr Hnd H.
  { inversion H. apply converts_with_nil. }
  rewrite fmap_cons in Hnd. simpl in Hnd. apply not_elem_of_cons in Hnd as [Hk Hrest].
  step_range H v1 e1 tr1 Hd.
  pose proof (Parse_directive_trace _ _ _ _ _ _ Hd) as Htr1.
  pose proof (Parse_directive_frame _ _ _ _ _ _ Hd) as (_ & HT & _ & _ & _ & HD).
  rewrite (eqb_ne_false k "decode") in HD by done.
  destruct e1; [inversion H; subst; done|].
  destruct (Parse_range rest v1) as [[v2 e2] tr2] eqn:Hr. inversion H; subst.
  apply converts_with_app; [done|].
  rewrite <- HT, <- HD. eapply IH; eauto.
Qed.

(** The key of the descriptor is always an upper-cased text. *)
Lemma Parse_range_Key (entries : list (string * string)) (v v' : Var') e tr :
  Parse_range entries v = (v', e, tr) ->
  Key v' = Key v \/ exists x, ("key", x) ∈ entries /\ Key v' = strings_ToUpper unicode_upper x.
Proof.
  revert v v' e tr. induction entries as [|[k x] rest IH]; intros v v' e tr H.
  { inversion H. by left. }
  step_range H v1 e1 tr1 Hd.
  pose proof (Parse_directive_frame _ _ _ _ _ _ Hd) as (_ & _ & _ & HK & _ & _).
  assert (Hv1 : Key v1 = Key v \/
                exists x0, ("key", x0) ∈ (k, x) :: rest /\ Key v1 = strings_ToUpper unicode_upper x0).
  { destruct (String.eqb_spec k "key") as [->|]; [right|by left].
    exists x. split; [apply list_elem_of_here|done]. }
  destruct e1; [inversion H; subst; done|].
  destruct (Parse_range rest v1) as [[v2 e2] tr2] eqn:Hr. inversion H; subst.
  apply IH in Hr as [Heq | (x0 & Hin & Heq)].
  - rewrite Heq. done.
  - right. exists x0. split; [by apply list_elem_of_further|done].
Qed.

(** When the loop ends without an error, each directive of the map has
    had its effect, in whatever order the entries were visited. *)
Lemma Parse_range_ok (entries : list (string * string)) (v v' : Var') tr :
  NoDup entries.*1 ->
  "decode" ∉ entries.*1 ->
  Parse_range entries v = (v', None, tr) ->
  forall k x, (k, x) ∈ entries ->
    (k = "key" -> Key v' = strings_ToUpper unicode_upper x) /\
    (k = "required" -> Required v' = true) /\
    (k = "default" -> (convert (Type_ v) x (Decode v)).1 = (Default v', None)) /\
    (k = "options" ->
       (Parse_options (Type_ v) (Decode v) (strings_Split x ","%char)).1 = inl (Options v')).
Proof.
  revert v v' tr. induction entries as [|[k0 x0] rest IH]; intros v v' tr Hnodup Hnd H k x Hin.
  { inversion Hin. }
  rewrite fmap_cons in Hnodup, Hnd. simpl in Hnodup, Hnd.
  apply NoDup_cons in Hnodup as [Hfresh Hnodup].
  apply not_elem_of_cons in Hnd as [Hk0 Hnd].
  step_range H v1 e1 tr1 Hd.
  destruct e1; [inversion H|].
  destruct (Parse_range rest v1) as [[v2 e2] tr2] eqn:Hr. inversion H; subst; clear H.
  pose proof (Parse_directive_frame _ _ _ _ _ _ Hd) as (_ & HT & _ & HK & HR & HD).
  pose proof (Parse_directive_Default _ _ _ _ _ _ Hd) as HDf.
  pose proof (Parse_directive_Options _ _ _ _ _ _ Hd) as HO.
  pose proof (Parse_directive_error _ _ _ _ _ _ Hd) as HE.
  rewrite (eqb_ne_false k0 "decode") in HD by done.
  apply elem_of_cons in Hin as [Heq | Hin].
  - inversion Heq; subst k0 x0; clear Heq.
    pose proof (Parse_range_frame _ _ _ _ _ Hr) as (_ & _ & _ & FK & FR & _ & FDf & FO).
    repeat split; intros ->; simpl in *.
    + rewrite FK by done. done.
    + rewrite FR by done. rewrite HR. apply orb_true_r.
    + rewrite FDf by done.
      destruct (convert (Type_ v) x (Decode v)) as [[d err] out]. simpl in *.
      subst err. by rewrite HDf.
    + rewrite FO by done.
      destruct (Parse_options (Type_ v) (Decode v) (strings_Split x ",")) as [[values|err] tr0];
        simpl in *; [by rewrite HO|done].
  - rewrite <- HT, <- HD. eapply IH; eauto.
Qed.

(** ** [Parse] as a whole *)

(** The descriptor as [Parse] has it when the second loop starts. *)
Lemma Parse_unfold (v : Var') (field : StructField) :
  field_Tag_env field <> "" ->
  Parse v field =
    Parse_range (range_order (delete "decode" (tagParamsMap (field_Tag_env field))))
      (let v0 := SetKey (SetType (SetName v (field_Name field)) (field_Type field))
                        (field_Name field) in
       match tagParamsMap (field_Tag_env field) !! "decode" with
       | Some value => SetDecode v0 value
       | None => v0
       end).
Proof.
  intros Htag. unfold Parse. rewrite (eqb_empty_false _ Htag). simpl.
  destruct (tagParamsMap (field_Tag_env field) !! "decode") eqn:Hdec; [done|].
  by rewrite delete_id.
Qed.

Lemma range_order_elem (m : gmap string string) (k x : string) :
  (k, x) ∈ range_order m <-> m !! k = Some x.
Proof. rewrite (range_order_perm m). apply elem_of_map_to_list. Qed.

Lemma range_order_NoDup (m : gmap string string) : NoDup (range_order m).*1.
Proof. rewrite (range_order_perm m). apply NoDup_fst_map_to_list. Qed.

Lemma range_order_keys (m : gmap string string) (k : string) :
  k ∈ (range_order m).*1 <-> is_Some (m !! k).
Proof.
  rewrite list_elem_of_fmap. split.
  - intros ([k' x] & -> & Hin). apply range_order_elem in Hin. eauto.
  - intros [x Hx]. exists (k, x). split; [done|]. by apply range_order_elem.
Qed.

Lemma range_order_no_decode (m : gmap string string) :
  "decode" ∉ (range_order (delete "decode" m)).*1.
Proof.
  rewrite range_order_keys, lookup_delete_eq. by intros [x Hx].
Qed.

Lemma tagParamsMap_empty_tag (k : string) : k <> "" -> tagParamsMap "" !! k = None.
Proof.
  intros Hk. unfold tagParamsMap. simpl.
  rewrite lookup_insert_ne by done. apply lookup_empty.
Qed.

Lemma decode_directive_tag_nonempty (tag d : string) :
  tagParamsMap tag !! "decode" = Some d -> tag <> "".
Proof. intros Hd ->. by rewrite tagParamsMap_empty_tag in Hd. Qed.

(** A successful options loop has converted every element. *)
Lemma Parse_options_calls t d in_ values tr :
  Parse_options t d in_ = (inl values, tr) ->
  forall val, val ∈ in_ -> Convert t val d ∈ tr.
Proof.
  revert values tr. induction in_ as [|val0 rest IH]; intros values tr H val Hin.
  { inversion Hin. }
  simpl in H. destruct (convert t val0 d) as [[v1 err] out]. destruct err; [done|].
  destruct (Parse_options t d rest) as [r tr0]. destruct r as [vs|]; [|done].
  inversion H; subst; clear H.
  apply elem_of_cons in Hin as [->|Hin]; [apply list_elem_of_here|].
  apply list_elem_of_further, elem_of_app. right. eapply IH; eauto.
Qed.

(** A loop that ends without an error has made the conversions of the
    [default] and [options] entries. *)
Lemma Parse_range_calls (entries : list (string * string)) (v v' : Var') tr :
  "decode" ∉ entries.*1 ->
  Parse_range entries v = (v', None, tr) ->
  forall x,
    (("default", x) ∈ entries -> Convert (Type_ v) x (Decode v) ∈ tr) /\
    (("options", x) ∈ entries ->
       forall val, val ∈ strings_Split x ","%char -> Convert (Type_ v) val (Decode v) ∈ tr).
Proof.
  revert v v' tr. induction entries as [|[k0 x0] rest IH]; intros v v' tr Hnd H x.
  { split; intros Hin; inversion Hin. }
  rewrite fmap_cons in Hnd. simpl in Hnd. apply not_elem_of_cons in Hnd as [Hk0 Hnd].
  step_range H v1 e1 tr1 Hd.
  destruct e1; [inversion H|].
  destruct (Parse_range rest v1) as [[v2 e2] tr2] eqn:Hr. inversion H; subst; clear H.
  pose proof (Parse_directive_frame _ _ _ _ _ _ Hd) as (_ & HT & _ & _ & _ & HD).
  rewrite (eqb_ne_false k0 "decode") in HD by done.
  destruct (IH _ _ _ Hnd Hr x) as [IHd IHo]. rewrite HT, HD in IHd, IHo.
  split; intros Hin; [|intros val Hval]; apply elem_of_cons in Hin as [Heq|Hin];
    apply elem_of_app; try (right; by eauto); left; inversion Heq; subst; clear Heq;
    unfold Parse_directive in Hd; step_directive Hd.
  - apply list_elem_of_here.
  - eapply Parse_options_calls; eauto.
Qed.

(** C4.  When the tag has a [decode] directive, wherever it stands among
    the tokens and in whatever order the map is visited, every conversion
    [Parse] makes is made for the field's type under that strategy; and if
    [Parse] ends without an error, the [default] value and every element
    of [options] have been converted so. *)
Theorem Parse_decode_in_effect (v : Var') (field : StructField) (d : string) v' e tr :
  tagParamsMap (field_Tag_env field) !! "decode" = Some d ->
  Parse v field = (v', e, tr) ->
  converts_with (field_Type field) d tr /\
  (e = None ->
   forall x,
     (tagParamsMap (field_Tag_env field) !! "default" = Some x ->
      Convert (field_Type field) x d ∈ tr) /\
     (tagParamsMap (field_Tag_env field) !! "options" = Some x ->
      forall val, val ∈ strings_Split x ","%char -> Convert (field_Type field) val d ∈ tr)).
Proof.
  intros Hdec HP.
  rewrite Parse_unfold in HP by (by eapply decode_directive_tag_nonempty).
  rewrite Hdec in HP. simpl in HP.
  pose proof (range_order_no_decode (tagParamsMap (field_Tag_env field))) as Hnd.
  split.
  - apply (Parse_range_trace _ _ _ _ _ Hnd HP).
  - intros -> x.
    destruct (Parse_range_calls _ _ _ _ Hnd HP x) as [Hd Ho]. simpl in Hd, Ho.
    split; intros Hx.
    + apply Hd, range_order_elem. by rewrite lookup_delete_ne.
    + apply Ho, range_order_elem. by rewrite lookup_delete_ne.
Qed.


(** ** Resolution *)

Lemma check_options_nonempty (w : Var') :
  Options w <> [] ->
  check_options w =
    match optionsContains_loop (Options w) (Value w) with
    | None => Panics
    | Some false => Returns (w, Some (option_error (Key w) (Value w) (Options w)))
    | Some true => Returns (w, None)
    end.
Proof.
  intros Hne. unfold check_options, optionsContains.
  destruct (Options w) as [|o os]; [done|]. reflexivity.
Qed.

Lemma check_options_empty (w : Var') : Options w = [] -> check_options w = Returns (w, None).
Proof. intros Hnil. unfold check_options. by rewrite Hnil. Qed.

(** Resolution when the lookup gives the empty string. *)
Lemma NewVarWithFunc_absent (field : StructField) (get : string -> string) v e tr :
  Parse Var_zero field = (v, e, tr) ->
  get (Key v) = "" ->
  (NewVarWithFunc field get).1 =
    if Required v then Returns (SetValue v Invalid, Some (required_error (Key v)))
    else check_options (SetValue v (substituted_value v)).
Proof.
  intros HP Hget. unfold NewVarWithFunc. rewrite HP, Hget. simpl.
  destruct (Required v); [done|].
  unfold substituted_value. by destruct (is_nil (Default v)).
Qed.

(** Resolution when the lookup result converts. *)
Lemma NewVarWithFunc_converted (field : StructField) (get : string -> string) v e tr value out :
  Parse Var_zero field = (v, e, tr) ->
  convert (Type_ v) (get (Key v)) (Decode v) = (value, None, out) ->
  (NewVarWithFunc field get).1 =
    if is_nil value && Required v
    then Returns (SetValue v value, Some (required_error (Key v)))
    else check_options (SetValue v (final_value v value)).
Proof.
  intros HP Hconv. unfold NewVarWithFunc. rewrite HP, Hconv. unfold final_value.
  destruct (is_nil value); simpl; [|done].
  destruct (Required v); [done|].
  unfold substituted_value. by destruct (is_nil (Default v)).
Qed.

(** Resolution when the lookup result does not convert. *)
Lemma NewVarWithFunc_conversion_error (field : StructField) (get : string -> string)
      v e tr value err out :
  Parse Var_zero field = (v, e, tr) ->
  convert (Type_ v) (get (Key v)) (Decode v) = (value, Some err, out) ->
  (NewVarWithFunc field get).1 = Returns (v, Some err).
Proof. intros HP Hconv. unfold NewVarWithFunc. by rewrite HP, Hconv. Qed.

(** C2 (the code departs from it).  An error of [Parse], such as a
    [default] that does not convert, is not what [NewVarWithFunc] returns:
    with an absent key on a field that is neither required nor restricted
    to options, resolution succeeds. *)
Theorem NewVarWithFunc_ignores_Parse_error (field : StructField) (get : string -> string)
        v (e : error) tr :
  Parse Var_zero field = (v, Some e, tr) ->
  get (Key v) = "" ->
  Required v = false ->
  Options v = [] ->
  (NewVarWithFunc field get).1 = Returns (SetValue v (substituted_value v), None).
Proof.
  intros HP Hget Hreq Hopts.
  rewrite (NewVarWithFunc_absent _ _ _ _ _ HP Hget), Hreq.
  by apply check_options_empty.
Qed.

(** C3, as amended.  A [key] directive sets the lookup key to its value
    upper-cased by [strings.ToUpper].  This is the key whenever [Parse]
    ends without an error; an interrupted [Parse] may still hold the
    upper-cased field name. *)
Theorem Parse_key_directive_is_upper_cased (v : Var') (field : StructField) (x : string) v' e tr :
  tagParamsMap (field_Tag_env field) !! "key" = Some x ->
  Parse v field = (v', e, tr) ->
  (e = None -> Key v' = strings_ToUpper unicode_upper x) /\
  (Key v' = strings_ToUpper unicode_upper x \/
   Key v' = strings_ToUpper unicode_upper (field_Name field)).
Proof.
  intros Hkey HP.
  assert (Htag : field_Tag_env field <> "").
  { intros Heq. rewrite Heq in Hkey. by rewrite tagParamsMap_empty_tag in Hkey. }
  rewrite Parse_unfold in HP by done.
  assert (Hin : ("key", x) ∈ range_order (delete "decode" (tagParamsMap (field_Tag_env field)))).
  { apply range_order_elem. by rewrite lookup_delete_ne. }
  split.
  - intros ->.
    eapply Parse_range_ok in HP as (HK & _);
      [by apply HK | apply range_order_NoDup | apply range_order_no_decode | exact Hin].
  - apply Parse_range_Key in HP as [HK | (x0 & Hin0 & HK)].
    + right. rewrite HK. by destruct (tagParamsMap (field_Tag_env field) !! "decode").
    + left. rewrite HK. apply range_order_elem in Hin0.
      rewrite lookup_delete_ne in Hin0 by done. congruence.
Qed.

(** X20.  When the parsed descriptor is required and the lookup gives
    nothing, resolution returns the error whose text is the key followed
    by [required]; and a [required] directive in the tag makes the
    descriptor required whenever [Parse] ends without an error. *)
Theorem required_missing_fails (field : StructField) (get : string -> string) v e tr :
  Parse Var_zero field = (v, e, tr) ->
  get (Key v) = "" ->
  (Required v = true ->
   (NewVarWithFunc field get).1 = Returns (SetValue v Invalid, Some (required_error (Key v))) /\
   Error (required_error (Key v)) = Key v ++ " required") /\
  (e = None -> is_Some (tagParamsMap (field_Tag_env field) !! "required") ->
   Required v = true).
Proof.
  intros HP Hget. split.
  - intros Hreq. rewrite (NewVarWithFunc_absent _ _ _ _ _ HP Hget), Hreq. done.
  - intros -> [x Hx].
    assert (Htag : field_Tag_env field <> "").
    { intros Heq. rewrite Heq in Hx. by rewrite tagParamsMap_empty_tag in Hx. }
    rewrite Parse_unfold in HP by done.
    eapply Parse_range_ok in HP as (_ & HR & _);
      [by apply HR | apply range_order_NoDup | apply range_order_no_decode |].
    apply range_order_elem. rewrite lookup_delete_ne by done. exact Hx.
Qed.

Lemma optionsContains_loop_true (options : list rvalue) (s : rvalue) :
  optionsContains_loop options s = Some true ->
  exists o, o ∈ options /\ Interface_eq s o = Some true.
Proof.
  induction options as [|o rest IH]; simpl; [done|].
  destruct (Interface_eq s o) as [[|]|] eqn:Heq; [| |done].
  - intros _. exists o. split; [apply list_elem_of_here|done].
  - intros H. destruct (IH H) as (o' & Hin & Ho'). exists o'.
    split; [by apply list_elem_of_further|done].
Qed.

Lemma optionsContains_loop_false (options : list rvalue) (s : rvalue) :
  Forall (fun o => Interface_eq s o = Some false) options ->
  optionsContains_loop options s = Some false.
Proof.
  induction 1 as [|o rest Ho _ IH]; simpl; [done|]. by rewrite Ho.
Qed.

Lemma optionsContains_loop_member (options : list rvalue) (s o : rvalue) :
  Forall (fun o' => is_Some (Interface_eq s o')) options ->
  o ∈ options -> Interface_eq s o = Some true ->
  optionsContains_loop options s = Some true.
Proof.
  induction 1 as [|o' rest [b Hb] _ IH]; intros Hin Ho; [inversion Hin|].
  simpl. rewrite Hb. destruct b; [done|].
  apply elem_of_cons in Hin as [->|Hin]; [congruence|by apply IH].
Qed.

Lemma final_value_valid (v : Var') (value : rvalue) : is_nil (final_value v value) = false.
Proof.
  unfold final_value, substituted_value.
  destruct (is_nil value) eqn:Hv; [|done].
  by destruct (is_nil (Default v)) eqn:Hd.
Qed.

Lemma check_options_returns (w w' : Var') err :
  check_options w = Returns (w', err) -> w' = w.
Proof.
  unfold check_options.
  destruct (0 <? _); [destruct (optionsContains w (Value w)) as [[|]|]|];
    intros H; inversion H; done.
Qed.

(** A successful resolution leaves a valid value in the descriptor. *)
Lemma NewVarWithFunc_success_valid (field : StructField) (get : string -> string) w :
  (NewVarWithFunc field get).1 = Returns (w, None) -> is_nil (Value w) = false.
Proof.
  destruct (Parse Var_zero field) as [[v e] tr] eqn:HP.
  destruct (convert (Type_ v) (get (Key v)) (Decode v)) as [[value [err|]] out] eqn:Hc.
  { rewrite (NewVarWithFunc_conversion_error _ _ _ _ _ _ _ _ HP Hc). done. }
  rewrite (NewVarWithFunc_converted _ _ _ _ _ _ _ HP Hc).
  destruct (is_nil value && Required v); [done|].
  intros H. pose proof (check_options_returns _ _ _ H) as ->. simpl.
  apply final_value_valid.
Qed.

(** The loop over a map with a single entry. *)
Lemma range_order_singleton (k x : string) : range_order {[k := x]} = [(k, x)].
Proof.
  pose proof (range_order_perm {[k := x]}) as Hp.
  rewrite map_to_list_singleton in Hp. by apply Permutation_singleton_r in Hp.
Qed.

Lemma Parse_single (v : Var') (field : StructField) (k x : string) :
  field_Tag_env field <> "" ->
  tagParamsMap (field_Tag_env field) = {[k := x]} ->
  k <> "decode" ->
  Parse v field =
    Parse_range [(k, x)]
      (SetKey (SetType (SetName v (field_Name field)) (field_Type field)) (field_Name field)).
Proof.
  intros Htag Hm Hk.
  rewrite Parse_unfold by done. rewrite Hm.
  rewrite lookup_singleton_ne by done. rewrite delete_singleton_ne by done.
  by rewrite range_order_singleton.
Qed.

(** The [default] of a descriptor parsed without error is the directive's
    value, converted for the field's type under the descriptor's strategy. *)
Lemma Parse_default_directive (v : Var') (field : StructField) (x : string) v' tr :
  tagParamsMap (field_Tag_env field) !! "default" = Some x ->
  Parse v field = (v', None, tr) ->
  (convert (field_Type field) x (Decode v')).1 = (Default v', None).
Proof.
  intros Hx HP.
  assert (Htag : field_Tag_env field <> "").
  { intros Heq. rewrite Heq in Hx. by rewrite tagParamsMap_empty_tag in Hx. }
  rewrite Parse_unfold in HP by done.
  pose proof (Parse_range_frame _ _ _ _ _ HP) as (_ & _ & _ & _ & _ & HD & _).
  specialize (HD (range_order_no_decode _)).
  assert (Hin : ("default", x) ∈
                range_order (delete "decode" (tagParamsMap (field_Tag_env field)))).
  { apply range_order_elem. by rewrite lookup_delete_ne. }
  pose proof (Parse_range_ok _ _ _ _ (range_order_NoDup _) (range_order_no_decode _) HP
                _ _ Hin) as (_ & _ & HDf & _).
  specialize (HDf eq_refl). rewrite HD.
  by destruct (tagParamsMap (field_Tag_env field) !! "decode").
Qed.

(** Likewise for the [options] of a descriptor parsed without error. *)
Lemma Parse_options_directive (v : Var') (field : StructField) (x : string) v' tr :
  tagParamsMap (field_Tag_env field) !! "options" = Some x ->
  Parse v field = (v', None, tr) ->
  (Parse_options (field_Type field) (Decode v') (strings_Split x ","%char)).1 = inl (Options v').
Proof.
  intros Hx HP.
  assert (Htag : field_Tag_env field <> "").
  { intros Heq. rewrite Heq in Hx. by rewrite tagParamsMap_empty_tag in Hx. }
  rewrite Parse_unfold in HP by done.
  pose proof (Parse_range_frame _ _ _ _ _ HP) as (_ & _ & _ & _ & _ & HD & _).
  specialize (HD (range_order_no_decode _)).
  assert (Hin : ("options", x) ∈
                range_order (delete "decode" (tagParamsMap (field_Tag_env field)))).
  { apply range_order_elem. by rewrite lookup_delete_ne. }
  pose proof (Parse_range_ok _ _ _ _ (range_order_NoDup _) (range_order_no_decode _) HP
                _ _ Hin) as (_ & _ & _ & HO).
  specialize (HO eq_refl). rewrite HD.
  by destruct (tagParamsMap (field_Tag_env field) !! "decode").
Qed.

(** X21.  For a descriptor that is not required and a lookup that gives
    nothing: whatever resolution returns holds the descriptor's default
    if it has one and the zero value of its type if not, and without
    options resolution succeeds; the default is the converted [default]
    directive whenever [Parse] ended without an error; a successful
    resolution never leaves the value unset; and [default=5] on an [int]
    field with an absent key resolves to 5. *)
Theorem absent_value_is_default_or_zero (field : StructField) (get : string -> string) v e tr :
  Parse Var_zero field = (v, e, tr) ->
  get (Key v) = "" ->
  Required v = false ->
  (forall w err, (NewVarWithFunc field get).1 = Returns (w, err) ->
     Value w = substituted_value v /\ is_nil (Value w) = false) /\
  (Options v = [] ->
     (NewVarWithFunc field get).1 = Returns (SetValue v (substituted_value v), None)) /\
  (e = None -> forall x, tagParamsMap (field_Tag_env field) !! "default" = Some x ->
     (convert (field_Type field) x (Decode v)).1 = (Default v, None)) /\
  (forall get' w, (NewVarWithFunc field get').1 = Returns (w, None) ->
     is_nil (Value w) = false) /\
  (forall name get',
     get' (strings_ToUpper unicode_upper name) = "" ->
     exists w,
       (NewVarWithFunc
          {| field_Name := name; field_Type := int_type; field_Tag_env := "default=5" |}
          get').1 = Returns (w, None) /\
       Value w = reflect_ValueOf_int 5).
Proof.
  intros HP Hget Hreq.
  pose proof (NewVarWithFunc_absent _ _ _ _ _ HP Hget) as Hres. rewrite Hreq in Hres.
  repeat split.
  - rewrite Hres in H. apply check_options_returns in H as ->. done.
  - rewrite Hres in H. apply check_options_returns in H as ->. simpl.
    apply (final_value_valid v Invalid).
  - intros Hopts. rewrite Hres. by apply check_options_empty.
  - intros -> x Hx. by eapply Parse_default_directive.
  - intros get' w. apply NewVarWithFunc_success_valid.
  - intros name get' Hget'.
    set (f := {| field_Name := name; field_Type := int_type; field_Tag_env := "default=5" |}).
    assert (HPf : Parse Var_zero f =
                  (mkVar name (strings_ToUpper unicode_upper name) int_type Invalid false ""
                         (reflect_ValueOf_int 5) [],
                   None, [Convert int_type "5" ""])).
    { rewrite (Parse_single _ f "default" "5"); [reflexivity|discriminate|reflexivity|discriminate]. }
    eexists. split.
    + rewrite (NewVarWithFunc_absent _ _ _ _ _ HPf Hget'). reflexivity.
    + reflexivity.
Qed.

(** X22.  For a descriptor with a non-empty list of options: resolution
    succeeds only if the value it ends with equals one of them; once the
    lookup result has converted and the required check is passed, a value
    that differs from every option gives the error built from the key,
    the value and the options, and a value equal to one of them (all
    comparisons being defined) gives success.  With [options=a,b,c] on a
    string field, [d] fails and [b] succeeds with value [b]. *)
Theorem options_membership_decides (field : StructField) (get : string -> string) v e tr :
  Parse Var_zero field = (v, e, tr) ->
  Options v <> [] ->
  (forall w, (NewVarWithFunc field get).1 = Returns (w, None) ->
     exists o, o ∈ Options v /\ Interface_eq (Value w) o = Some true) /\
  (forall value out,
     convert (Type_ v) (get (Key v)) (Decode v) = (value, None, out) ->
     is_nil value && Required v = false ->
     (Forall (fun o => Interface_eq (final_value v value) o = Some false) (Options v) ->
      (NewVarWithFunc field get).1 =
        Returns (SetValue v (final_value v value),
                 Some (option_error (Key v) (final_value v value) (Options v)))) /\
     (Forall (fun o => is_Some (Interface_eq (final_value v value) o)) (Options v) ->
      forall o, o ∈ Options v -> Interface_eq (final_value v value) o = Some true ->
      (NewVarWithFunc field get).1 = Returns (SetValue v (final_value v value), None))) /\
  (forall name get',
     let f := {| field_Name := name; field_Type := string_type;
                 field_Tag_env := "options=a,b,c" |} in
     let options := [reflect_ValueOf_string "a"; reflect_ValueOf_string "b";
                     reflect_ValueOf_string "c"] in
     (get' (strings_ToUpper unicode_upper name) = "d" ->
      exists w, (NewVarWithFunc f get').1 =
                  Returns (w, Some (option_error (strings_ToUpper unicode_upper name)
                                                 (reflect_ValueOf_string "d") options))) /\
     (get' (strings_ToUpper unicode_upper name) = "b" ->
      exists w, (NewVarWithFunc f get').1 = Returns (w, None) /\
                Value w = reflect_ValueOf_string "b")).
Proof.
  intros HP Hopts. split; [|split].
  - intros w.
    destruct (convert (Type_ v) (get (Key v)) (Decode v)) as [[value [err|]] out] eqn:Hc.
    { rewrite (NewVarWithFunc_conversion_error _ _ _ _ _ _ _ _ HP Hc). done. }
    rewrite (NewVarWithFunc_converted _ _ _ _ _ _ _ HP Hc).
    destruct (is_nil value && Required v); [done|].
    rewrite check_options_nonempty by done. simpl.
    destruct (optionsContains_loop _ _) as [[|]|] eqn:Hloop; [|done|done].
    intros Hret. inversion Hret; subst; clear Hret. simpl.
    by apply optionsContains_loop_true.
  - intros value out Hc Hreq.
    rewrite (NewVarWithFunc_converted _ _ _ _ _ _ _ HP Hc), Hreq.
    rewrite check_options_nonempty by done. simpl. split.
    + intros Hall. by rewrite (optionsContains_loop_false _ _ Hall).
    + intros Hdef o Hin Ho. by rewrite (optionsContains_loop_member _ _ _ Hdef Hin Ho).
  - intros name get' f options.
    assert (HPf : Parse Var_zero f =
                  (mkVar name (strings_ToUpper unicode_upper name) string_type Invalid false ""
                         Invalid options,
                   None,
                   [Convert string_type "a" ""; Convert string_type "b" "";
                    Convert string_type "c" ""])).
    { rewrite (Parse_single _ f "options" "a,b,c");
        [reflexivity|discriminate|reflexivity|discriminate]. }
    split; intros Hget'; eexists.
    + erewrite (NewVarWithFunc_converted _ _ _ _ _ (reflect_ValueOf_string "d") [] HPf);
        [reflexivity|]. simpl. rewrite Hget'. reflexivity.
    + erewrite (NewVarWithFunc_converted _ _ _ _ _ (reflect_ValueOf_string "b") [] HPf);
        [split; reflexivity|]. simpl. rewrite Hget'. reflexivity.
Qed.

(** ** More on the converter *)

(** X1.  Kind-based conversion knows five kinds only: for a type of any
    other kind (the sized integers, the unsigned integers, floats,
    structs, ...) every non-empty text is refused with an "unsupported"
    error naming the kind, under [decode=kind] and, unless the type is
    [time.Duration], under the unset strategy as well. *)
Theorem convert_kind_unsupported (t : reflect_Type) (value : string) :
  value <> "" ->
  kind_supported (Type_Kind t) = false ->
  convert t value "kind" =
    (Invalid, Some (errConversion value ("unsupported " ++ Kind_String (Type_Kind t))), []) /\
  (Type_String t <> "time.Duration" ->
   convert t value "" =
     (Invalid, Some (errConversion value ("unsupported " ++ Kind_String (Type_Kind t))), [])).
Proof.
  intros Hne Hk.
  assert (HK : convertWithKind t value =
               (Invalid, Some (errConversion value ("unsupported " ++ Kind_String (Type_Kind t))),
                [])).
  { unfold convertWithKind. rewrite (eqb_empty_false _ Hne).
    destruct (Type_Kind t); try discriminate Hk; reflexivity. }
  split.
  - unfold convert. rewrite (eqb_empty_false _ Hne). simpl. exact HK.
  - intros Hty. unfold convert, convertWithType.
    rewrite (eqb_empty_false _ Hne), (eqb_ne_false _ _ Hty). simpl. by rewrite HK.
Qed.

(** X2.  Without a [decode] directive every type other than
    [time.Duration] is converted exactly as under [decode=kind]: same
    value, same error, same output. *)
Theorem convert_unset_is_kind (t : reflect_Type) (value : string) :
  Type_String t <> "time.Duration" ->
  convert t value "" = convert t value "kind".
Proof.
  intros Hty. unfold convert, convertWithType.
  destruct (String.eqb value ""); [reflexivity|].
  rewrite (eqb_ne_false _ _ Hty). simpl.
  by destruct (convertWithKind t value) as [[val err] out].
Qed.

(** X3.  Under [decode=type] only [time.Duration] converts: a nil error
    on a non-empty text means the type is [time.Duration], and for that
    type the result is whatever [time.ParseDuration] gives. *)
Theorem convert_type_only_duration (t : reflect_Type) (value : string) :
  value <> "" ->
  ((convert t value "type").1.2 = None -> Type_String t = "time.Duration") /\
  (Type_String t = "time.Duration" ->
   convert t value "type" =
     (reflect_ValueOf_Duration (time_ParseDuration value).1, (time_ParseDuration value).2, [])).
Proof.
  intros Hne. unfold convert, convertWithType. rewrite (eqb_empty_false _ Hne). simpl.
  split.
  - destruct (String.eqb_spec (Type_String t) "time.Duration") as [Heq|Hn]; [done|].
    simpl. discriminate.
  - intros ->. simpl. by destruct (time_ParseDuration value).
Qed.

(** X4.  A decode token other than the empty one, [kind], [type] and
    [yaml] is refused, with an error that names the token, as soon as
    there is a non-empty text to convert. *)
Theorem convert_unknown_decode (t : reflect_Type) (value decode : string) :
  value <> "" ->
  decode_known decode = false ->
  convert t value decode = (Invalid, Some (errConversion decode "unsupported decode"), []).
Proof.
  intros Hne Hd. unfold decode_known in Hd.
  apply orb_false_elim in Hd as [Hd Hyaml]. apply orb_false_elim in Hd as [Hd Htype].
  apply orb_false_elim in Hd as [Hempty Hkind].
  unfold convert. by rewrite (eqb_empty_false _ Hne), Hempty, Hkind, Htype, Hyaml.
Qed.

(** X5.  [convert] writes to standard output only when the YAML decoder
    fails on the text, and then it writes the decoder's error. *)
Theorem convert_prints_only_decoder_error (t : reflect_Type) (value decode : string) :
  (convert t value decode).2 = [] \/
  exists err, yaml_Unmarshal t value = inr err /\
              (convert t value decode).2 = [Print (Error err)].
Proof.
  assert (HY : (parseYaml t value).2 = [] \/
               exists err, yaml_Unmarshal t value = inr err /\
                           (parseYaml t value).2 = [Print (Error err)]).
  { unfold parseYaml. destruct (yaml_Unmarshal t value) as [d|err]; [by left|right; eauto]. }
  assert (HK : (convertWithKind t value).2 = [] \/
               exists err, yaml_Unmarshal t value = inr err /\
                           (convertWithKind t value).2 = [Print (Error err)]).
  { unfold convertWithKind, parseInt, parseBool, parseSlice, parseMap.
    destruct (String.eqb value ""); [by left|].
    destruct (Type_Kind t); try (by left); try exact HY.
    - destruct (strconv_ParseBool value); by left.
    - destruct (strconv_Atoi value); by left. }
  pose proof (convertWithType_out t value) as HT.
  unfold convert.
  destruct (String.eqb value ""); [by left|].
  destruct (String.eqb decode "").
  { destruct (convertWithType t value) as [[val err] out]. simpl in HT. subst out.
    destruct err; [|by left].
    destruct (convertWithKind t value) as [[val' err'] out']. exact HK. }
  destruct (String.eqb decode "kind"); [exact HK|].
  destruct (String.eqb decode "type"); [by left|].
  destruct (String.eqb decode "yaml"); [exact HY|by left].
Qed.

(** ** More on the tag parser *)

Lemma Parse_options_ok (t : reflect_Type) (d : string) (in_ : list string) values tr :
  Parse_options t d in_ = (inl values, tr) ->
  values = map (fun x => (convert t x d).1.1) in_.
Proof.
  revert values tr. induction in_ as [|val rest IH]; intros values tr H; simpl in H.
  { by inversion H. }
  destruct (convert t val d) as [[v1 [err|]] out] eqn:Hc; [done|].
  destruct (Parse_options t d rest) as [[vs|e] tr0]; [|done].
  inversion H; subst; clear H. simpl. rewrite Hc. simpl. f_equal. by eapply IH.
Qed.

Lemma Parse_options_err (t : reflect_Type) (d : string) (in_ : list string) e tr :
  Parse_options t d in_ = (inr e, tr) ->
  exists val, val ∈ in_ /\ (convert t val d).1.2 = Some e.
Proof.
  revert tr. induction in_ as [|val rest IH]; intros tr H; simpl in H; [done|].
  destruct (convert t val d) as [[v1 [err|]] out] eqn:Hc.
  { inversion H; subst. exists val. rewrite Hc. split; [apply list_elem_of_here|done]. }
  destruct (Parse_options t d rest) as [[vs|e'] tr0] eqn:Hr; [done|].
  inversion H; subst; clear H.
  destruct (IH _ eq_refl) as (x & Hin & Hx). exists x.
  split; [by apply list_elem_of_further|done].
Qed.

(** X6.  The loop of the [options] case converts the elements in order:
    when it succeeds the options are the converted elements, one for each
    element and in the same order; when it fails the error is that of the
    first element that does not convert. *)
Theorem Parse_options_elementwise (t : reflect_Type) (d : string) (in_ : list string) :
  match (Parse_options t d in_).1 with
  | inl values =>
      values = map (fun x => (convert t x d).1.1) in_ /\
      Forall (fun x => (convert t x d).1.2 = None) in_
  | inr e =>
      exists pre x post,
        in_ = (pre ++ x :: post)%list /\
        Forall (fun y => (convert t y d).1.2 = None) pre /\
        (convert t x d).1.2 = Some e
  end.
Proof.
  induction in_ as [|val rest IH]; simpl; [by split|].
  destruct (convert t val d) as [[v1 err] out] eqn:Hc.
  destruct err as [e|]; simpl.
  { exists [], val, rest. rewrite Hc. by repeat split. }
  destruct (Parse_options t d rest) as [[values|e] tr]; simpl in *.
  - destruct IH as [-> Hall]. split; [done|]. constructor; [by rewrite Hc|done].
  - destruct IH as (pre & x & post & -> & Hpre & Hx).
    exists (val :: pre), x, post. repeat split; [|done].
    constructor; [by rewrite Hc|done].
Qed.

Lemma Parse_range_error_origin (entries : list (string * string)) (v v' : Var') e tr :
  "decode" ∉ entries.*1 ->
  Parse_range entries v = (v', Some e, tr) ->
  exists x,
    (("default", x) ∈ entries /\ (convert (Type_ v) x (Decode v)).1.2 = Some e) \/
    (("options", x) ∈ entries /\
     exists val, val ∈ strings_Split x ","%char /\
                 (convert (Type_ v) val (Decode v)).1.2 = Some e).
Proof.
  revert v v' tr. induction entries as [|[k0 x0] rest IH]; intros v v' tr Hnd H.
  { inversion H. }
  rewrite fmap_cons in Hnd. simpl in Hnd. apply not_elem_of_cons in Hnd as [Hk0 Hnd].
  step_range H v1 e1 tr1 Hd.
  pose proof (Parse_directive_frame _ _ _ _ _ _ Hd) as (_ & HT & _ & _ & _ & HD).
  rewrite (eqb_ne_false k0 "decode") in HD by done.
  destruct e1 as [e1|].
  - inversion H; subst; clear H.
    pose proof (Parse_directive_error _ _ _ _ _ _ Hd) as HE.
    exists x0.
    destruct (String.eqb_spec k0 "default") as [->|Hnd0].
    { left. split; [apply list_elem_of_here|done]. }
    destruct (String.eqb_spec k0 "options") as [->|Hno]; [|done].
    right. split; [apply list_elem_of_here|].
    destruct (Parse_options (Type_ v) (Decode v) (strings_Split x0 ",")) as [[values|e'] tr']
      eqn:Hopts; simpl in *; [done|].
    inversion HE; subst e'; clear HE.
    by eapply Parse_options_err.
  - destruct (Parse_range rest v1) as [[v2 e2] tr2] eqn:Hr. inversion H; subst; clear H.
    destruct (IH _ _ _ Hnd Hr) as (x & [[Hin Hx] | [Hin Hx]]); rewrite HT, HD in Hx;
      exists x; [left|right]; (split; [by apply list_elem_of_further|done]).
Qed.

Lemma Parse_range_no_conversion (entries : list (string * string)) (v : Var') :
  "default" ∉ entries.*1 -> "options" ∉ entries.*1 ->
  exists v', Parse_range entries v = (v', None, []).
Proof.
  revert v. induction entries as [|[k0 x0] rest IH]; intros v Hd Ho; [by eexists|].
  rewrite fmap_cons in Hd, Ho. simpl in Hd, Ho.
  apply not_elem_of_cons in Hd as [Hd0 Hd]. apply not_elem_of_cons in Ho as [Ho0 Ho].
  simpl. unfold Parse_directive.
  rewrite (eqb_ne_false k0 "default"), (eqb_ne_false k0 "options") by done.
  destruct (String.eqb k0 "key");
    [|destruct (String.eqb k0 "required"); [|destruct (String.eqb k0 "decode")]];
    match goal with
    | |- context [Parse_range rest ?w] => destruct (IH w Hd Ho) as [v' ->]
    end; by eexists.
Qed.

(** The strategy in effect while the directives are processed. *)
Lemma Parse_Type_Decode (v : Var') (field : StructField) v' e tr :
  Parse v field = (v', e, tr) ->
  Name v' = field_Name field /\ Type_ v' = field_Type field /\ Value v' = Value v /\
  Decode v' = default (Decode v) (tagParamsMap (field_Tag_env field) !! "decode").
Proof.
  intros HP.
  destruct (String.eqb_spec (field_Tag_env field) "") as [Heq|Htag].
  { unfold Parse in HP. rewrite Heq in HP. simpl in HP. inversion HP; subst; simpl.
    rewrite Heq. by rewrite tagParamsMap_empty_tag. }
  rewrite Parse_unfold in HP by done.
  pose proof (Parse_range_frame _ _ _ _ _ HP) as (HN & HT & HV & _ & _ & HD & _).
  specialize (HD (range_order_no_decode _)). rewrite HN, HT, HV, HD.
  by destruct (tagParamsMap (field_Tag_env field) !! "decode").
Qed.

(** X7.  [Parse] fails only through a conversion: its error is the error
    of converting the [default] value or one of the [options] elements,
    for the field's type under the strategy of the descriptor; and a tag
    with neither directive parses without error and without converting
    anything. *)
Theorem Parse_error_origin (v : Var') (field : StructField) v' e tr :
  Parse v field = (v', e, tr) ->
  (forall err, e = Some err ->
     exists x,
       (tagParamsMap (field_Tag_env field) !! "default" = Some x /\
        (convert (field_Type field) x (Decode v')).1.2 = Some err) \/
       (tagParamsMap (field_Tag_env field) !! "options" = Some x /\
        exists val, val ∈ strings_Split x ","%char /\
                    (convert (field_Type field) val (Decode v')).1.2 = Some err)) /\
  (tagParamsMap (field_Tag_env field) !! "default" = None ->
   tagParamsMap (field_Tag_env field) !! "options" = None ->
   e = None /\ tr = []).
Proof.
  intros HP.
  pose proof (Parse_Type_Decode _ _ _ _ _ HP) as (_ & _ & _ & HD).
  destruct (String.eqb_spec (field_Tag_env field) "") as [Heq|Htag].
  { unfold Parse in HP. rewrite Heq in HP. simpl in HP. inversion HP; subst. by split. }
  rewrite Parse_unfold in HP by done.
  set (m := tagParamsMap (field_Tag_env field)) in *.
  set (v0 := match m !! "decode" with Some _ => _ | None => _ end) in HP.
  assert (HT0 : Type_ v0 = field_Type field) by (subst v0; by destruct (m !! "decode")).
  assert (HD0 : Decode v0 = Decode v')
    by (rewrite HD; subst v0; by destruct (m !! "decode")).
  split.
  - intros err ->.
    destruct (Parse_range_error_origin _ _ _ _ _ (range_order_no_decode m) HP)
      as (x & [[Hin Hx] | [Hin Hx]]); rewrite HT0, HD0 in Hx;
      apply range_order_elem in Hin; rewrite lookup_delete_ne in Hin by done; eauto.
  - intros Hnd Hno.
    destruct (Parse_range_no_conversion (range_order (delete "decode" m)) v0) as [w Hw].
    + rewrite range_order_keys, lookup_delete_ne by done. rewrite Hnd. by intros [? ?].
    + rewrite range_order_keys, lookup_delete_ne by done. rewrite Hno. by intros [? ?].
    + rewrite Hw in HP. by inversion HP.
Qed.

(** X8.  A [Parse] that ends without an error is determined by the map of
    directives, whatever the order in which the map was visited: name and
    type come from the field; the key is the upper-cased [key] directive,
    or the upper-cased field name; [required] sets the flag; [decode]
    sets the strategy; [default] and [options] hold the conversions of
    their values under that strategy; the value is not touched. *)
Theorem Parse_success_characterised (v : Var') (field : StructField) v' tr :
  Parse v field = (v', None, tr) ->
  let m := tagParamsMap (field_Tag_env field) in
  let t := field_Type field in
  let d := default (Decode v) (m !! "decode") in
  v' = mkVar (field_Name field)
             (strings_ToUpper unicode_upper (default (field_Name field) (m !! "key")))
             t
             (Value v)
             (Required v || bool_decide (is_Some (m !! "required")))
             d
             (match m !! "default" with
              | Some x => (convert t x d).1.1
              | None => Default v
              end)
             (match m !! "options" with
              | Some x => map (fun val => (convert t val d).1.1) (strings_Split x ","%char)
              | None => Options v
              end).
Proof.
  intros HP m t d.
  pose proof (Parse_Type_Decode _ _ _ _ _ HP) as (HN & HT & HV & HD).
  fold m in HD. fold d in HD.
  destruct (String.eqb_spec (field_Tag_env field) "") as [Heq|Htag].
  { subst m d. unfold Parse in HP. rewrite Heq in *. simpl in HP. inversion HP; subst; clear HP.
    rewrite !tagParamsMap_empty_tag by done. simpl.
    unfold SetKey, SetType, SetName. simpl. by rewrite orb_false_r. }
  rewrite Parse_unfold in HP by done. fold m in HP.
  set (v0 := match m !! "decode" with Some _ => _ | None => _ end) in HP.
  assert (H0 : Key v0 = strings_ToUpper unicode_upper (field_Name field) /\
               Required v0 = Required v /\ Default v0 = Default v /\ Options v0 = Options v /\
               Type_ v0 = t /\ Decode v0 = d).
  { subst v0 d. by destruct (m !! "decode"). }
  destruct H0 as (HK0 & HR0 & HDf0 & HO0 & HT0 & HD0).
  pose proof (Parse_range_frame _ _ _ _ _ HP) as (_ & _ & _ & FK & FR & _ & FDf & FO).
  pose proof (Parse_range_ok _ _ _ _ (range_order_NoDup _) (range_order_no_decode _) HP) as Hok.
  assert (Hin : forall k x, k <> "decode" ->
                  ((k, x) ∈ range_order (delete "decode" m) <-> m !! k = Some x)).
  { intros k x Hk. rewrite range_order_elem. by rewrite lookup_delete_ne. }
  assert (Hnot : forall k, k <> "decode" -> m !! k = None ->
                   k ∉ (range_order (delete "decode" m)).*1).
  { intros k Hk Hnone. rewrite range_order_keys, lookup_delete_ne by done.
    rewrite Hnone. by intros [? ?]. }
  destruct v' as [n' k' t' val' r' d' df' o']. simpl in *. subst n' t' val' d'.
  f_equal.
  - destruct (m !! "key") as [x|] eqn:Hx; simpl.
    + apply (Hok "key" x); [by apply Hin|done].
    + rewrite FK by (by apply Hnot). done.
  - destruct (m !! "required") as [x|] eqn:Hx.
    + rewrite bool_decide_eq_true_2 by eauto. rewrite orb_true_r.
      apply (Hok "required" x); [by apply Hin|done].
    + rewrite bool_decide_eq_false_2 by (by intros [? ?]). rewrite orb_false_r.
      rewrite FR by (by apply Hnot). done.
  - destruct (m !! "default") as [x|] eqn:Hx.
    + destruct (Hok "default" x) as (_ & _ & Hdf & _); [by apply Hin|].
      specialize (Hdf eq_refl). rewrite HT0, HD0 in Hdf.
      destruct (convert t x d) as [[dv de] dout]. simpl in *. congruence.
    + rewrite FDf by (by apply Hnot). done.
  - destruct (m !! "options") as [x|] eqn:Hx.
    + destruct (Hok "options" x) as (_ & _ & _ & Hop); [by apply Hin|].
      specialize (Hop eq_refl). rewrite HT0, HD0 in Hop.
      destruct (Parse_options t d (strings_Split x ","%char)) as [r tr0] eqn:Hpo.
      simpl in Hop. subst r. by eapply Parse_options_ok.
    + rewrite FO by (by apply Hnot). done.
Qed.

(** X9.  Directives the [switch] does not know are ignored: a tag made
    only of such tokens parses like the empty tag. *)
Theorem Parse_unknown_directives_ignored (v : Var') (field : StructField) :
  (forall k, is_Some (tagParamsMap (field_Tag_env field) !! k) ->
     k <> "key" /\ k <> "required" /\ k <> "decode" /\ k <> "default" /\ k <> "options") ->
  Parse v field =
    (SetKey (SetType (SetName v (field_Name field)) (field_Type field)) (field_Name field),
     None, []).
Proof.
  intros Hunknown.
  destruct (String.eqb_spec (field_Tag_env field) "") as [Heq|Htag].
  { unfold Parse. by rewrite Heq. }
  rewrite Parse_unfold by done.
  set (m := tagParamsMap (field_Tag_env field)) in *.
  assert (Hnone : forall k, In k ["key"; "required"; "decode"; "default"; "options"] ->
                    m !! k = None).
  { intros k Hk. destruct (m !! k) eqn:Hl; [|done].
    destruct (Hunknown k) as (? & ? & ? & ? & ?); [eauto|].
    simpl in Hk. intuition congruence. }
  assert (Hkey : m !! "key" = None) by (apply Hnone; simpl; auto).
  assert (Hreq : m !! "required" = None) by (apply Hnone; simpl; auto).
  assert (Hdec : m !! "decode" = None) by (apply Hnone; simpl; auto).
  assert (Hdef : m !! "default" = None) by (apply Hnone; simpl; auto).
  assert (Hopt : m !! "options" = None) by (apply Hnone; simpl; auto 6).
  rewrite Hdec. simpl.
  set (v0 := SetKey _ _).
  assert (Hnot : forall k, k <> "decode" -> m !! k = None ->
                   k ∉ (range_order (delete "decode" m)).*1).
  { intros k Hk Hn. rewrite range_order_keys, lookup_delete_ne by done.
    rewrite Hn. by intros [? ?]. }
  destruct (Parse_range_no_conversion (range_order (delete "decode" m)) v0) as [w Hw];
    [by apply Hnot..|].
  rewrite Hw. f_equal. f_equal.
  pose proof (Parse_range_frame _ _ _ _ _ Hw) as (HN & HT & HV & FK & FR & FD & FDf & FO).
  specialize (FK (Hnot "key" ltac:(done) Hkey)).
  specialize (FR (Hnot "required" ltac:(done) Hreq)).
  specialize (FD (range_order_no_decode m)).
  specialize (FDf (Hnot "default" ltac:(done) Hdef)).
  specialize (FO (Hnot "options" ltac:(done) Hopt)).
  destruct w, v0; simpl in *; congruence.
Qed.

(** ** Tokens and the map of directives *)

Lemma Split_no_sep (s : string) (sep : ascii) :
  no_byte sep s = true -> strings_Split s sep = [s].
Proof.
  unfold no_byte. induction s as [|c s IH]; simpl; [done|].
  intros Hc. apply andb_true_iff in Hc as [Hc Hs].
  apply negb_true_iff in Hc. rewrite Hc, (IH Hs). done.
Qed.

Lemma Split_first (a b : string) (sep : ascii) :
  no_byte sep a = true ->
  strings_Split (a ++ String sep b) sep = a :: strings_Split b sep.
Proof.
  unfold no_byte. induction a as [|c a IH]; simpl.
  - intros _. by rewrite Ascii.eqb_refl.
  - intros Hc. apply andb_true_iff in Hc as [Hc Ha].
    apply negb_true_iff in Hc. rewrite Hc, (IH Ha). done.
Qed.

Lemma Split_nonempty (s : string) (sep : ascii) : strings_Split s sep <> [].
Proof.
  destruct s as [|c s]; simpl; [done|].
  destruct (Ascii.eqb c sep); [done|]. by destruct (strings_Split s sep).
Qed.

(** X10.  A token is read as a directive name and a value: a token
    without [=] is a name with the empty value; in [name=value] the value
    is the text up to the next [=], so that it is [value] itself when
    [value] holds no [=], and whatever follows a second [=] is dropped. *)
Theorem tagParam_entry_spec (name value : string) :
  no_byte "="%char name = true ->
  tagParam_entry name = (name, "") /\
  tagParam_entry (name ++ "=" ++ value) = (name, hd "" (strings_Split value "="%char)) /\
  (no_byte "="%char value = true -> tagParam_entry (name ++ "=" ++ value) = (name, value)).
Proof.
  intros Hname. unfold tagParam_entry.
  assert (Hsplit : strings_Split (name ++ "=" ++ value) "="%char =
                   name :: strings_Split value "="%char).
  { by apply (Split_first name value "="%char). }
  repeat split.
  - by rewrite (Split_no_sep _ _ Hname).
  - rewrite Hsplit. simpl.
    pose proof (Split_nonempty value "="%char) as Hne.
    destruct (strings_Split value "="%char) as [|piece pieces]; [done|].
    simpl. f_equal.
    replace (1 <? Z.of_nat (S (S (length pieces)))) with true; [done|].
    symmetry. apply Z.ltb_lt. lia.
  - intros Hvalue. rewrite Hsplit, (Split_no_sep _ _ Hvalue). reflexivity.
Qed.

Lemma foldl_insert_last (l : list (string * string)) (m0 : gmap string string) (k : string) :
  foldl (fun m e => <[e.1 := e.2]> m) m0 l !! k =
    match last (filter (fun e => e.1 = k) l) with
    | Some e => Some e.2
    | None => m0 !! k
    end.
Proof.
  induction l as [|e l IH] using rev_ind; [done|].
  rewrite foldl_app, filter_app. simpl.
  destruct (decide (e.1 = k)) as [Heq|Hne].
  - rewrite filter_cons_True by done. rewrite filter_nil, last_snoc.
    rewrite Heq. apply lookup_insert_eq.
  - rewrite filter_cons_False by done. rewrite filter_nil, app_nil_r.
    rewrite lookup_insert_ne by done. exact IH.
Qed.

(** X11.  The map of directives holds, for each directive name, the value
    of the last token of the tag with that name: a later token overrides
    an earlier one, and a name that no token has is absent. *)
Theorem tagParamsMap_last_wins (tag k : string) :
  tagParamsMap tag !! k =
    snd <$> last (filter (fun e => e.1 = k) (tagParam_entry <$> strings_Split tag " "%char)).
Proof.
  unfold tagParamsMap.
  rewrite <- (foldl_fmap (fun m e => <[e.1 := e.2]> m) ∅ (strings_Split tag " "%char)
                         tagParam_entry).
  rewrite foldl_insert_last, lookup_empty.
  by destruct (last _).
Qed.

(** ** More on resolution *)

Lemma optionsContains_loop_None (options : list rvalue) (s : rvalue) :
  optionsContains_loop options s = None ->
  exists o, o ∈ options /\ Interface_eq s o = None.
Proof.
  induction options as [|o rest IH]; simpl; [done|].
  destruct (Interface_eq s o) as [[|]|] eqn:Heq; [done| |].
  - intros H. destruct (IH H) as (o' & Hin & Ho'). exists o'.
    split; [by apply list_elem_of_further|done].
  - intros _. exists o. split; [apply list_elem_of_here|done].
Qed.

Lemma optionsContains_loop_panics (pre post : list rvalue) (s o : rvalue) :
  Forall (fun o' => Interface_eq s o' = Some false) pre ->
  Interface_eq s o = None ->
  optionsContains_loop (pre ++ o :: post) s = None.
Proof.
  induction 1 as [|o' pre Ho' _ IH]; intros Ho; simpl; [by rewrite Ho|].
  rewrite Ho'. by apply IH.
Qed.

(** X12.  A lookup value that does not convert ends resolution with the
    conversion error; the descriptor comes back as parsed, its value
    still the zero Value. *)
Theorem lookup_conversion_error_returned
        (field : StructField) (get : string -> string) v e tr value err out :
  Parse Var_zero field = (v, e, tr) ->
  convert (Type_ v) (get (Key v)) (Decode v) = (value, Some err, out) ->
  (NewVarWithFunc field get).1 = Returns (v, Some err) /\ Value v = Invalid.
Proof.
  intros HP Hc. split.
  - by eapply NewVarWithFunc_conversion_error.
  - by pose proof (Parse_Type_Decode _ _ _ _ _ HP) as (_ & _ & -> & _).
Qed.

(** X13.  An unrecognised decode token is reported only when there is a
    value to convert: with a non-empty lookup result resolution fails
    with "unsupported decode", with an absent one (on a field neither
    required nor restricted to options) it succeeds. *)
Theorem unknown_decode_reported_only_with_value
        (field : StructField) (get : string -> string) v e tr :
  Parse Var_zero field = (v, e, tr) ->
  decode_known (Decode v) = false ->
  (get (Key v) <> "" ->
   (NewVarWithFunc field get).1 =
     Returns (v, Some (errConversion (Decode v) "unsupported decode"))) /\
  (get (Key v) = "" -> Required v = false -> Options v = [] ->
   (NewVarWithFunc field get).1 = Returns (SetValue v (substituted_value v), None)).
Proof.
  intros HP Hd. split.
  - intros Hne.
    eapply NewVarWithFunc_conversion_error; [exact HP|].
    unfold decode_known in Hd.
    apply orb_false_elim in Hd as [Hd Hyaml]. apply orb_false_elim in Hd as [Hd Htype].
    apply orb_false_elim in Hd as [Hempty Hkind].
    unfold convert. by rewrite (eqb_empty_false _ Hne), Hempty, Hkind, Htype, Hyaml.
  - intros Hget Hreq Hopts.
    rewrite (NewVarWithFunc_absent _ _ _ _ _ HP Hget), Hreq. by apply check_options_empty.
Qed.

(** X14.  An options element that is empty is stored as the zero Value,
    and comparing with it panics: once the lookup result has converted
    and the required check is passed, resolution panics as soon as the
    options hold a zero Value that no equal option precedes.  This is in
    particular the fate of a bare [options] directive, whose only element
    is empty. *)
Theorem empty_option_element_panics
        (field : StructField) (get : string -> string) v e tr value out :
  Parse Var_zero field = (v, e, tr) ->
  convert (Type_ v) (get (Key v)) (Decode v) = (value, None, out) ->
  is_nil value && Required v = false ->
  (forall pre post,
     Options v = (pre ++ Invalid :: post)%list ->
     Forall (fun o => Interface_eq (final_value v value) o = Some false) pre ->
     (NewVarWithFunc field get).1 = Panics) /\
  (e = None -> tagParamsMap (field_Tag_env field) !! "options" = Some "" ->
   Options v = [Invalid] /\ (NewVarWithFunc field get).1 = Panics).
Proof.
  intros HP Hc Hreq.
  assert (Hgen : forall pre post,
            Options v = (pre ++ Invalid :: post)%list ->
            Forall (fun o => Interface_eq (final_value v value) o = Some false) pre ->
            (NewVarWithFunc field get).1 = Panics).
  { intros pre post Hopts Hpre.
    rewrite (NewVarWithFunc_converted _ _ _ _ _ _ _ HP Hc), Hreq.
    rewrite check_options_nonempty by (simpl; rewrite Hopts; by destruct pre).
    simpl. rewrite Hopts.
    rewrite (optionsContains_loop_panics pre post _ Invalid Hpre); [done|].
    pose proof (final_value_valid v value) as Hval.
    by destruct (final_value v value). }
  split; [exact Hgen|].
  intros -> Hbare.
  assert (Hopts : Options v = [Invalid]).
  { pose proof (Parse_options_directive _ _ _ _ _ Hbare HP) as Ho.
    simpl in Ho. by inversion Ho. }
  split; [exact Hopts|]. apply (Hgen [] []); [exact Hopts|constructor].
Qed.


(** X16.  Kind-based conversion of the scalar kinds, for a non-empty
    text: a string-kind field takes the text as it is; an int-kind field
    takes what [strconv.Atoi] reads and fails with an [int] conversion
    error on anything else; a bool-kind field likewise with
    [strconv.ParseBool].  The value has the predeclared type ([string],
    [int], [bool]) whatever the name of the field's type, and a text
    that does not parse is never turned into a zero value. *)
Theorem convert_kind_scalars (t : reflect_Type) (value : string) :
  value <> "" ->
  (Type_Kind t = String_kind ->
   convert t value "kind" = (reflect_ValueOf_string value, None, [])) /\
  (Type_Kind t = Int ->
   convert t value "kind" =
     match strconv_Atoi value with
     | Some i => (reflect_ValueOf_int i, None, [])
     | None => (Invalid, Some (errConversion value "int"), [])
     end) /\
  (Type_Kind t = Bool ->
   convert t value "kind" =
     match strconv_ParseBool value with
     | Some b => (reflect_ValueOf_bool b, None, [])
     | None => (Invalid, Some (errConversion value "bool"), [])
     end).
Proof.
  intros Hne. unfold convert, convertWithKind, parseInt, parseBool.
  rewrite (eqb_empty_false _ Hne). simpl.
  repeat split; intros ->; simpl; [done| |].
  - by destruct (strconv_Atoi value).
  - by destruct (strconv_ParseBool value).
Qed.

(** X17.  Without a [decode] directive, a text that [time.ParseDuration]
    accepts converts by type on a field whose type is named
    [time.Duration]: the result is the parsed duration and the
    kind-based conversion is not consulted. *)
Theorem convert_unset_duration (t : reflect_Type) (value : string) (d : Z) :
  Type_String t = "time.Duration" ->
  value <> "" ->
  time_ParseDuration value = (d, None) ->
  convert t value "" = (reflect_ValueOf_Duration d, None, []).
Proof.
  intros Hty Hne Hpd. unfold convert, convertWithType.
  rewrite (eqb_empty_false _ Hne), Hty, Hpd. reflexivity.
Qed.

(** X18.  Slices and maps are handed to the YAML decoder under every
    strategy that accepts them: for a field of kind slice or map (whose
    type is not named [time.Duration]), the unset strategy, [kind] and
    [yaml] give the same result, which is the decoded value of the
    field's own type or, when the decoder fails, a conversion error
    naming the kind and the type, the decoder's error being printed. *)
Theorem convert_slice_map_is_yaml (t : reflect_Type) (value : string) :
  value <> "" ->
  Type_Kind t = Slice \/ Type_Kind t = Map ->
  Type_String t <> "time.Duration" ->
  convert t value "" = convert t value "yaml" /\
  convert t value "kind" = convert t value "yaml" /\
  convert t value "yaml" =
    match yaml_Unmarshal t value with
    | inl d => (Valid t d, None, [])
    | inr err =>
        (Invalid,
         Some (errConversion value
                 ("yaml conversion error; Kind(): " ++ Kind_String (Type_Kind t)
                  ++ "; Type(): " ++ Type_String t)),
         [Print (Error err)])
    end.
Proof.
  intros Hne Hkind Hty.
  assert (HK : convertWithKind t value = parseYaml t value).
  { unfold convertWithKind, parseSlice, parseMap. rewrite (eqb_empty_false _ Hne).
    by destruct Hkind as [-> | ->]. }
  unfold convert, convertWithType, convertWithYaml.
  rewrite (eqb_empty_false _ Hne), (eqb_ne_false _ _ Hty). simpl. rewrite HK.
  split; [|split].
  - by destruct (parseYaml t value) as [[val err] out].
  - reflexivity.
  - unfold parseYaml. by destruct (yaml_Unmarshal t value).
Qed.

Lemma Parse_directive_error_keeps (k x : string) (v v' : Var') e tr :
  Parse_directive k x v = (v', Some e, tr) -> v' = v.
Proof.
  unfold Parse_directive. intros H.
  case_key k; step_directive H; done.
Qed.

(** X19.  The loop over the directives stops at the first one that fails:
    the descriptor stays as the directives visited before had left it,
    the error is that directive's, and the directives that would have
    been visited after it are not applied. *)
Theorem Parse_range_stops_at_error
        (pre post : list (string * string)) (k x : string) (v v1 : Var') tr1 e :
  Parse_range pre v = (v1, None, tr1) ->
  (Parse_directive k x v1).1.2 = Some e ->
  Parse_range (pre ++ (k, x) :: post) v =
    (v1, Some e, (tr1 ++ (Parse_directive k x v1).2)%list).
Proof.
  revert v tr1. induction pre as [|[k0 x0] pre IH]; intros v tr1 Hpre Hfail.
  - inversion Hpre; subst; clear Hpre. simpl.
    destruct (Parse_directive k x v1) as [[v2 e2] tr2] eqn:Hd. simpl in Hfail. subst e2.
    by rewrite (Parse_directive_error_keeps _ _ _ _ _ _ Hd).
  - simpl in Hpre |- *.
    destruct (Parse_directive k0 x0 v) as [[v0 e0] tr0] eqn:Hd0.
    destruct e0; [done|].
    destruct (Parse_range pre v0) as [[v' e'] tr'] eqn:Hr.
    inversion Hpre; subst; clear Hpre.
    rewrite (IH _ _ Hr Hfail). by rewrite app_assoc.
Qed.

(** ** Where resolution departs from the tag *)

(** [Parse] on a tag without a [decode] directive. *)
Lemma Parse_no_decode (v : Var') (field : StructField) :
  field_Tag_env field <> "" ->
  tagParamsMap (field_Tag_env field) !! "decode" = None ->
  Parse v field =
    Parse_range (range_order (tagParamsMap (field_Tag_env field)))
      (SetKey (SetType (SetName v (field_Name field)) (field_Type field)) (field_Name field)).
Proof.
  intros Htag Hdec. unfold Parse. rewrite (eqb_empty_false _ Htag). simpl.
  by rewrite Hdec.
Qed.

(** C6 (the code departs from it).  On an [int] field tagged
    [required options=x], when the map is visited with [options] first,
    the conversion of [x] fails, [Parse] returns before it reaches
    [required], and [NewVarWithFunc], which drops that error, resolves an
    absent key to 0 with a nil error instead of the required error. *)
Theorem required_directive_lost_when_options_fail (name : string) (get : string -> string) :
  let field := {| field_Name := name; field_Type := int_type;
                  field_Tag_env := "required options=x" |} in
  range_order (tagParamsMap (field_Tag_env field)) = [("options", "x"); ("required", "")] ->
  get (strings_ToUpper unicode_upper name) = "" ->
  is_Some (tagParamsMap (field_Tag_env field) !! "required") /\
  (Parse Var_zero field).1.2 = Some (errConversion "x" "int") /\
  (NewVarWithFunc field get).1 =
    Returns (mkVar name (strings_ToUpper unicode_upper name) int_type
                   (reflect_ValueOf_int 0) false "" Invalid [],
             None).
Proof.
  intros field Horder Hget.
  assert (HP : Parse Var_zero field =
               (mkVar name (strings_ToUpper unicode_upper name) int_type Invalid false ""
                      Invalid [],
                Some (errConversion "x" "int"), [Convert int_type "x" ""])).
  { rewrite Parse_no_decode; [|discriminate|reflexivity].
    rewrite Horder. reflexivity. }
  split; [by eexists|]. split; [by rewrite HP|].
  by rewrite (NewVarWithFunc_absent _ _ _ _ _ HP Hget).
Qed.

(** C7 (the code departs from it).  On an [int] field tagged
    [default=5 options=x], when the map is visited with [options] first,
    [Parse] returns before it reaches [default]; the dropped error leaves
    a descriptor without default, and an absent key resolves to the zero
    value 0 with a nil error although the tag declares the default 5. *)
Theorem declared_default_lost_when_options_fail (name : string) (get : string -> string) :
  let field := {| field_Name := name; field_Type := int_type;
                  field_Tag_env := "default=5 options=x" |} in
  range_order (tagParamsMap (field_Tag_env field)) = [("options", "x"); ("default", "5")] ->
  get (strings_ToUpper unicode_upper name) = "" ->
  tagParamsMap (field_Tag_env field) !! "default" = Some "5" /\
  (convert int_type "5" "").1 = (reflect_ValueOf_int 5, None) /\
  (Parse Var_zero field).1.2 = Some (errConversion "x" "int") /\
  (NewVarWithFunc field get).1 =
    Returns (mkVar name (strings_ToUpper unicode_upper name) int_type
                   (reflect_ValueOf_int 0) false "" Invalid [],
             None).
Proof.
  intros field Horder Hget.
  assert (HP : Parse Var_zero field =
               (mkVar name (strings_ToUpper unicode_upper name) int_type Invalid false ""
                      Invalid [],
                Some (errConversion "x" "int"), [Convert int_type "x" ""])).
  { rewrite Parse_no_decode; [|discriminate|reflexivity].
    rewrite Horder. reflexivity. }
  split; [reflexivity|]. split; [reflexivity|]. split; [by rewrite HP|].
  by rewrite (NewVarWithFunc_absent _ _ _ _ _ HP Hget).
Qed.

(** C8 (the code departs from it).  Two tags that declare options and
    escape the check.  With [options=1,x] on an [int] field the element
    [x] does not convert, [Parse] returns without storing any option, and
    the lookup value 9, which is not among the declared options, is
    accepted with a nil error.  With [options=a,,b] on a string field the
    empty element is stored as the zero Value, and the lookup value [d]
    makes [optionsContains] panic instead of returning the options error. *)
Theorem declared_options_unchecked_or_panic (name : string) (get : string -> string) :
  (get (strings_ToUpper unicode_upper name) = "9" ->
   let field := {| field_Name := name; field_Type := int_type;
                   field_Tag_env := "options=1,x" |} in
   tagParamsMap (field_Tag_env field) !! "options" = Some "1,x" /\
   (Parse Var_zero field).1.2 = Some (errConversion "x" "int") /\
   (NewVarWithFunc field get).1 =
     Returns (mkVar name (strings_ToUpper unicode_upper name) int_type
                    (reflect_ValueOf_int 9) false "" Invalid [],
              None)) /\
  (get (strings_ToUpper unicode_upper name) = "d" ->
   let field := {| field_Name := name; field_Type := string_type;
                   field_Tag_env := "options=a,,b" |} in
   Options (Parse Var_zero field).1.1 =
     [reflect_ValueOf_string "a"; Invalid; reflect_ValueOf_string "b"] /\
   (Parse Var_zero field).1.2 = None /\
   (NewVarWithFunc field get).1 = Panics).
Proof.
  split; intros Hget field.
  - assert (HP : Parse Var_zero field =
                 (mkVar name (strings_ToUpper unicode_upper name) int_type Invalid false ""
                        Invalid [],
                  Some (errConversion "x" "int"),
                  [Convert int_type "1" ""; Convert int_type "x" ""])).
    { rewrite (Parse_single _ field "options" "1,x");
        [reflexivity|discriminate|reflexivity|discriminate]. }
    split; [reflexivity|]. split; [by rewrite HP|].
    erewrite (NewVarWithFunc_converted _ _ _ _ _ (reflect_ValueOf_int 9) [] HP);
      [reflexivity|]. simpl. rewrite Hget. reflexivity.
  - assert (HP : Parse Var_zero field =
                 (mkVar name (strings_ToUpper unicode_upper name) string_type Invalid false ""
                        Invalid
                        [reflect_ValueOf_string "a"; Invalid; reflect_ValueOf_string "b"],
                  None,
                  [Convert string_type "a" ""; Convert string_type "" "";
                   Convert string_type "b" ""])).
    { rewrite (Parse_single _ field "options" "a,,b");
        [reflexivity|discriminate|reflexivity|discriminate]. }
    split; [by rewrite HP|]. split; [by rewrite HP|].
    erewrite (NewVarWithFunc_converted _ _ _ _ _ (reflect_ValueOf_string "d") [] HP);
      [reflexivity|]. simpl. rewrite Hget. reflexivity.
Qed.

(** C10 (the code departs from it).  With an absent key on an [int] field
    that is not required and has no default, the zero value 0 is put in
    place.  Tagged [options=1,,2], the check compares 0 with 1, then
    meets the zero Value stored for the empty element and panics, where
    the options error is due.  Tagged [options=1,x], the element [x] does
    not convert, no option is stored, and 0 is accepted with a nil error
    although it is not among the declared options. *)
Theorem substituted_value_check_panics_or_is_skipped (name : string) (get : string -> string) :
  get (strings_ToUpper unicode_upper name) = "" ->
  (let field := {| field_Name := name; field_Type := int_type;
                   field_Tag_env := "options=1,,2" |} in
   Options (Parse Var_zero field).1.1 = [reflect_ValueOf_int 1; Invalid; reflect_ValueOf_int 2] /\
   Required (Parse Var_zero field).1.1 = false /\
   substituted_value (Parse Var_zero field).1.1 = reflect_ValueOf_int 0 /\
   (NewVarWithFunc field get).1 = Panics) /\
  (let field := {| field_Name := name; field_Type := int_type;
                   field_Tag_env := "options=1,x" |} in
   tagParamsMap (field_Tag_env field) !! "options" = Some "1,x" /\
   (NewVarWithFunc field get).1 =
     Returns (mkVar name (strings_ToUpper unicode_upper name) int_type
                    (reflect_ValueOf_int 0) false "" Invalid [],
              None)).
Proof.
  intros Hget. split; intros field.
  - assert (HP : Parse Var_zero field =
                 (mkVar name (strings_ToUpper unicode_upper name) int_type Invalid false ""
                        Invalid [reflect_ValueOf_int 1; Invalid; reflect_ValueOf_int 2],
                  None,
                  [Convert int_type "1" ""; Convert int_type "" ""; Convert int_type "2" ""])).
    { rewrite (Parse_single _ field "options" "1,,2");
        [reflexivity|discriminate|reflexivity|discriminate]. }
    rewrite HP. simpl. repeat split.
    by rewrite (NewVarWithFunc_absent _ _ _ _ _ HP Hget).
  - assert (HP : Parse Var_zero field =
                 (mkVar name (strings_ToUpper unicode_upper name) int_type Invalid false ""
                        Invalid [],
                  Some (errConversion "x" "int"),
                  [Convert int_type "1" ""; Convert int_type "x" ""])).
    { rewrite (Parse_single _ field "options" "1,x");
        [reflexivity|discriminate|reflexivity|discriminate]. }
    split; [reflexivity|].
    by rewrite (NewVarWithFunc_absent _ _ _ _ _ HP Hget).
Qed.

End Properties.

(** C1 at the text [abc], which the duration grammar rejects. *)
Lemma convert_unset_duration_error_is_replaced_witness :
  "abc" <> "" /\
  Reference.ParseDuration "abc" =
    (0, Some (errorString ("time: invalid duration " ++ dquote ++ "abc" ++ dquote))) /\
  convert (E := Reference.externals) Duration_type "abc" "" =
    (Invalid, Some (errConversion "abc" "unsupported int64"), []).
Proof.
  split; [discriminate|]. split; [reflexivity|].
  apply (convert_unset_duration_error_is_replaced (E := Reference.externals) "abc" 0
           (errorString ("time: invalid duration " ++ dquote ++ "abc" ++ dquote))).
  - discriminate.
  - reflexivity.
Defined.

(** ** The theorems on the reference environment *)

Lemma Reference_range_order_perm (m : gmap string string) :
  range_order (Externals := Reference.externals) m ≡ₚ map_to_list m.
Proof. reflexivity. Qed.

Lemma Reference_unicode_upper_no_lower (s : string) :
  no_lower (unicode_upper (Externals := Reference.externals) s) = true.
Proof. apply map_upper_no_lower. Qed.

(** C2 on an [int] field tagged [default=abc] with an absent key: [Parse]
    reports the conversion error, resolution reports none. *)
Lemma NewVarWithFunc_ignores_Parse_error_witness :
  let f := Reference.field_of "Port" int_type "default=abc" in
  let v := (Reference.parsed f).1.1 in
  Reference.parsed f = (v, Some (errConversion "abc" "int"), (Reference.parsed f).2) /\
  Reference.absent (Key v) = "" /\
  Required v = false /\
  Options v = [] /\
  Reference.resolved f Reference.absent = Returns (SetValue v (reflect_ValueOf_int 0), None).
Proof.
  cbv zeta.
  assert (HP : Reference.parsed (Reference.field_of "Port" int_type "default=abc") =
               ((Reference.parsed (Reference.field_of "Port" int_type "default=abc")).1.1,
                Some (errConversion "abc" "int"),
                (Reference.parsed (Reference.field_of "Port" int_type "default=abc")).2))
    by (vm_compute; reflexivity).
  split; [exact HP|]. split; [reflexivity|]. split; [vm_compute; reflexivity|].
  split; [vm_compute; reflexivity|].
  unfold Reference.resolved.
  rewrite (NewVarWithFunc_ignores_Parse_error (E := Reference.externals) _ Reference.absent
             _ _ _ HP eq_refl); vm_compute; reflexivity.
Defined.

(** C3 as the claim has it fails: [key=port] gives the key [PORT]. *)
Lemma key_directive_is_not_verbatim :
  let f := Reference.field_of "Port" int_type "key=port" in
  tagParamsMap (field_Tag_env f) !! "key" = Some "port" /\
  (Reference.parsed f).1.2 = None /\
  Key (Reference.parsed f).1.1 = "PORT" /\
  Key (Reference.parsed f).1.1 <> "port".
Proof.
  cbv zeta. split; [vm_compute; reflexivity|]. split; [vm_compute; reflexivity|].
  split; [vm_compute; reflexivity|]. vm_compute. discriminate.
Qed.

Lemma Parse_key_directive_is_upper_cased_witness :
  let f := Reference.field_of "Port" int_type "required key=port" in
  tagParamsMap (field_Tag_env f) !! "key" = Some "port" /\
  (Reference.parsed f).1.2 = None /\
  Key (Reference.parsed f).1.1 = "PORT".
Proof.
  cbv zeta. split; [vm_compute; reflexivity|]. split; [vm_compute; reflexivity|].
  assert (Hk : tagParamsMap "required key=port" !! "key" = Some "port")
    by (vm_compute; reflexivity).
  destruct (Reference.parsed (Reference.field_of "Port" int_type "required key=port"))
    as [[v e] tr] eqn:HP.
  assert (He : e = None) by (vm_compute in HP; congruence).
  destruct (Parse_key_directive_is_upper_cased (E := Reference.externals)
              Reference_range_order_perm Var_zero
              (Reference.field_of "Port" int_type "required key=port") "port" v e tr Hk HP)
    as [Hkey _].
  exact (Hkey He).
Defined.

(** C4 on [default=5 decode=kind options=4,5], the [decode] token standing
    between the two it governs. *)
Lemma Parse_decode_in_effect_witness :
  let f := Reference.field_of "Port" int_type "default=5 decode=kind options=4,5" in
  tagParamsMap (field_Tag_env f) !! "decode" = Some "kind" /\
  (Reference.parsed f).1.2 = None /\
  converts_with int_type "kind" (Reference.parsed f).2 /\
  Convert int_type "5" "kind" ∈ (Reference.parsed f).2 /\
  Convert int_type "4" "kind" ∈ (Reference.parsed f).2.
Proof.
  cbv zeta.
  assert (Hd : tagParamsMap "default=5 decode=kind options=4,5" !! "decode" = Some "kind")
    by (vm_compute; reflexivity).
  split; [exact Hd|]. split; [vm_compute; reflexivity|].
  destruct (Reference.parsed (Reference.field_of "Port" int_type
                                "default=5 decode=kind options=4,5"))
    as [[v e] tr] eqn:HP.
  assert (He : e = None) by (vm_compute in HP; congruence).
  destruct (Parse_decode_in_effect (E := Reference.externals) Reference_range_order_perm
              Var_zero (Reference.field_of "Port" int_type "default=5 decode=kind options=4,5")
              "kind" v e tr Hd HP) as [Hall Hsome].
  split; [exact Hall|].
  split.
  - apply (proj1 (Hsome He "5")). vm_compute. reflexivity.
  - apply (proj2 (Hsome He "4,5")); [vm_compute; reflexivity|].
    apply list_elem_of_here.
Defined.


(** X20 on a required [int] field with an absent key. *)
Lemma required_missing_fails_witness :
  let f := Reference.field_of "Port" int_type "required" in
  Required (Reference.parsed f).1.1 = true /\
  Reference.absent (Key (Reference.parsed f).1.1) = "" /\
  exists w, Reference.resolved f Reference.absent =
              Returns (w, Some (errorString "PORT required")).
Proof.
  cbv zeta. split; [vm_compute; reflexivity|]. split; [reflexivity|].
  unfold Reference.resolved.
  destruct (Reference.parsed (Reference.field_of "Port" int_type "required"))
    as [[v e] tr] eqn:HP.
  assert (Hreq : Required v = true) by (vm_compute in HP; inversion HP; reflexivity).
  assert (Hkey : Key v = "PORT") by (vm_compute in HP; inversion HP; reflexivity).
  destruct (required_missing_fails (E := Reference.externals) Reference_range_order_perm
              _ Reference.absent v e tr HP eq_refl) as [Hfail _].
  destruct (Hfail Hreq) as [Hres _].
  exists (SetValue v Invalid). rewrite Hres. unfold required_error. rewrite Hkey. reflexivity.
Defined.

(** X21 on an [int] field tagged [default=5] with an absent key. *)
Lemma absent_value_is_default_or_zero_witness :
  let f := Reference.field_of "Port" int_type "default=5" in
  Reference.absent (Key (Reference.parsed f).1.1) = "" /\
  Required (Reference.parsed f).1.1 = false /\
  exists w, Reference.resolved f Reference.absent = Returns (w, None) /\
            Value w = reflect_ValueOf_int 5.
Proof.
  cbv zeta. split; [reflexivity|]. split; [vm_compute; reflexivity|].
  unfold Reference.resolved.
  destruct (Reference.parsed (Reference.field_of "Port" int_type "default=5"))
    as [[v e] tr] eqn:HP.
  assert (Hreq : Required v = false) by (vm_compute in HP; inversion HP; reflexivity).
  assert (Hopt : Options v = []) by (vm_compute in HP; inversion HP; reflexivity).
  assert (Hdef : substituted_value (E := Reference.externals) v = reflect_ValueOf_int 5)
    by (vm_compute in HP; inversion HP; reflexivity).
  destruct (absent_value_is_default_or_zero (E := Reference.externals)
              Reference_range_order_perm _ Reference.absent v e tr HP eq_refl Hreq)
    as (_ & Hres & _).
  exists (SetValue v (substituted_value (E := Reference.externals) v)).
  split; [exact (Hres Hopt)|]. exact Hdef.
Defined.

(** X22 on a string field with [options=a,b,c]: the value [d] is refused. *)
Lemma options_membership_decides_witness :
  let f := Reference.field_of "Mode" string_type "options=a,b,c" in
  Options (Reference.parsed f).1.1 <> [] /\
  exists w, Reference.resolved f (fun _ => "d") =
              Returns (w, Some (errorString
                         ("MODE=" ++ dquote ++ "d" ++ dquote ++ " not in allowed options: [a b c]"))).
Proof.
  cbv zeta.
  assert (Hne : Options (Reference.parsed (Reference.field_of "Mode" string_type
                                             "options=a,b,c")).1.1 <> [])
    by (vm_compute; discriminate).
  split; [exact Hne|].
  unfold Reference.resolved.
  destruct (Reference.parsed (Reference.field_of "Mode" string_type "options=a,b,c"))
    as [[v e] tr] eqn:HP.
  destruct (options_membership_decides (E := Reference.externals) Reference_range_order_perm
              _ (fun _ => "d") v e tr HP Hne) as (_ & Hdecide & _).
  assert (Hv : v = mkVar "Mode" "MODE" string_type Invalid false "" Invalid
                     [reflect_ValueOf_string "a"; reflect_ValueOf_string "b";
                      reflect_ValueOf_string "c"])
    by (vm_compute in HP; inversion HP; reflexivity).
  subst v.
  destruct (Hdecide (reflect_ValueOf_string "d") [] eq_refl eq_refl) as [Hfail _].
  eexists. rewrite Hfail; [reflexivity|].
  repeat constructor.
Defined.

(** ** Further theorems on the reference environment *)

Lemma convert_kind_unsupported_witness :
  let t := {| Type_String := "float64"; Type_Kind := Float64 |} in
  "1.5" <> "" /\ kind_supported (Type_Kind t) = false /\
  convert (E := Reference.externals) t "1.5" "kind" =
    (Invalid, Some (errConversion "1.5" "unsupported float64"), []).
Proof.
  cbv zeta. split; [discriminate|]. split; [reflexivity|].
  apply (proj1 (convert_kind_unsupported (E := Reference.externals)
                  {| Type_String := "float64"; Type_Kind := Float64 |} "1.5"
                  ltac:(discriminate) eq_refl)).
Defined.

Lemma convert_unset_is_kind_witness :
  Type_String int_type <> "time.Duration" /\
  convert (E := Reference.externals) int_type "12" "" = (reflect_ValueOf_int 12, None, []).
Proof.
  split; [discriminate|].
  rewrite (convert_unset_is_kind (E := Reference.externals) int_type "12"); [|discriminate].
  reflexivity.
Defined.

Lemma convert_type_only_duration_witness :
  "1h30m" <> "" /\
  convert (E := Reference.externals) Duration_type "1h30m" "type" =
    (reflect_ValueOf_Duration 5400000000000, None, []).
Proof.
  split; [discriminate|].
  rewrite (proj2 (convert_type_only_duration (E := Reference.externals) Duration_type "1h30m"
                    ltac:(discriminate)) eq_refl).
  reflexivity.
Defined.

Lemma convert_unknown_decode_witness :
  "x" <> "" /\ decode_known "json" = false /\
  convert (E := Reference.externals) string_type "x" "json" =
    (Invalid, Some (errConversion "json" "unsupported decode"), []).
Proof.
  split; [discriminate|]. split; [reflexivity|].
  apply (convert_unknown_decode (E := Reference.externals) string_type "x" "json");
    [discriminate|reflexivity].
Defined.

Lemma Parse_error_origin_witness :
  let f := Reference.field_of "Port" int_type "required default=abc" in
  (Reference.parsed f).1.2 = Some (errConversion "abc" "int") /\
  tagParamsMap (field_Tag_env f) !! "default" = Some "abc" /\
  (convert (E := Reference.externals) int_type "abc" "").1.2 = Some (errConversion "abc" "int").
Proof.
  cbv zeta. split; [vm_compute; reflexivity|]. split; [vm_compute; reflexivity|].
  destruct (Reference.parsed (Reference.field_of "Port" int_type "required default=abc"))
    as [[v e] tr] eqn:HP.
  assert (He : e = Some (errConversion "abc" "int")) by (vm_compute in HP; congruence).
  assert (Hd : Decode v = "") by (vm_compute in HP; inversion HP; reflexivity).
  destruct (Parse_error_origin (E := Reference.externals) Reference_range_order_perm
              Var_zero (Reference.field_of "Port" int_type "required default=abc") v e tr HP)
    as [Horigin _].
  destruct (Horigin _ He) as (x & [[Hx Herr] | [Hx _]]).
  - assert (x = "abc") by (vm_compute in Hx; congruence). subst x.
    rewrite Hd in Herr. exact Herr.
  - vm_compute in Hx. discriminate.
Defined.

Lemma Parse_success_characterised_witness :
  let f := Reference.field_of "Port" int_type
             "required key=db default=5 options=4,5 decode=kind" in
  Reference.parsed f =
    (mkVar "Port" "DB" int_type Invalid true "kind" (reflect_ValueOf_int 5)
           [reflect_ValueOf_int 4; reflect_ValueOf_int 5],
     None, (Reference.parsed f).2).
Proof.
  cbv zeta.
  destruct (Reference.parsed (Reference.field_of "Port" int_type
                                "required key=db default=5 options=4,5 decode=kind"))
    as [[v e] tr] eqn:HP.
  assert (He : e = None) by (vm_compute in HP; congruence). subst e.
  pose proof (Parse_success_characterised (E := Reference.externals)
                Reference_range_order_perm Var_zero _ v tr HP) as Hv.
  simpl. rewrite Hv. vm_compute. reflexivity.
Defined.

Lemma Parse_unknown_directives_ignored_witness :
  let f := Reference.field_of "Port" int_type "foo=bar baz" in
  Reference.parsed f =
    (mkVar "Port" "PORT" int_type Invalid false "" Invalid [], None, []).
Proof.
  cbv zeta. unfold Reference.parsed.
  rewrite (Parse_unknown_directives_ignored (E := Reference.externals)
             Reference_range_order_perm Var_zero
             (Reference.field_of "Port" int_type "foo=bar baz")); [reflexivity|].
  intros k [x Hk].
  repeat split; intros ->; vm_compute in Hk; discriminate.
Defined.

Lemma tagParam_entry_spec_witness :
  no_byte "="%char "default" = true /\
  tagParam_entry "default=a=b" = ("default", "a").
Proof.
  split; [reflexivity|].
  exact (proj1 (proj2 (tagParam_entry_spec "default" "a=b" eq_refl))).
Defined.

Lemma lookup_conversion_error_returned_witness :
  let f := Reference.field_of "Port" int_type "" in
  exists v, Reference.resolved f (fun _ => "abc") =
              Returns (v, Some (errConversion "abc" "int")) /\
            Value v = Invalid.
Proof.
  cbv zeta. unfold Reference.resolved.
  destruct (Reference.parsed (Reference.field_of "Port" int_type "")) as [[v e] tr] eqn:HP.
  assert (Hv : v = mkVar "Port" "PORT" int_type Invalid false "" Invalid [])
    by (vm_compute in HP; inversion HP; reflexivity).
  exists v.
  apply (lookup_conversion_error_returned (E := Reference.externals)
           Reference_range_order_perm (Reference.field_of "Port" int_type "")
           (fun _ => "abc") v e tr Invalid (errConversion "abc" "int") [] HP).
  subst v. reflexivity.
Defined.

Lemma unknown_decode_reported_only_with_value_witness :
  let f := Reference.field_of "Mode" string_type "decode=json" in
  decode_known (Decode (Reference.parsed f).1.1) = false /\
  (exists v, Reference.resolved f (fun _ => "x") =
               Returns (v, Some (errConversion "json" "unsupported decode"))) /\
  (exists v, Reference.resolved f Reference.absent = Returns (v, None)).
Proof.
  cbv zeta. split; [vm_compute; reflexivity|].
  unfold Reference.resolved.
  destruct (Reference.parsed (Reference.field_of "Mode" string_type "decode=json"))
    as [[v e] tr] eqn:HP.
  assert (Hv : v = mkVar "Mode" "MODE" string_type Invalid false "json" Invalid [])
    by (vm_compute in HP; inversion HP; reflexivity).
  assert (Hd : decode_known (Decode v) = false) by (subst v; reflexivity).
  split.
  - exists v.
    rewrite (proj1 (unknown_decode_reported_only_with_value (E := Reference.externals)
                      _ (fun _ => "x") v e tr HP Hd)); [|discriminate].
    subst v. reflexivity.
  - eexists.
    apply (proj2 (unknown_decode_reported_only_with_value (E := Reference.externals)
                    _ Reference.absent v e tr HP Hd)); subst v; reflexivity.
Defined.

Lemma empty_option_element_panics_witness :
  let f := Reference.field_of "Mode" string_type "options" in
  (Reference.parsed f).1.2 = None /\
  tagParamsMap (field_Tag_env f) !! "options" = Some "" /\
  Options (Reference.parsed f).1.1 = [Invalid] /\
  Reference.resolved f (fun _ => "d") = Panics.
Proof.
  cbv zeta. split; [vm_compute; reflexivity|].
  assert (Hbare : tagParamsMap "options" !! "options" = Some "") by (vm_compute; reflexivity).
  split; [exact Hbare|].
  unfold Reference.resolved.
  destruct (Reference.parsed (Reference.field_of "Mode" string_type "options"))
    as [[v e] tr] eqn:HP.
  assert (Hv : v = mkVar "Mode" "MODE" string_type Invalid false "" Invalid [Invalid])
    by (vm_compute in HP; inversion HP; reflexivity).
  assert (He : e = None) by (vm_compute in HP; congruence).
  apply (proj2 (empty_option_element_panics (E := Reference.externals)
                  Reference_range_order_perm
                  (Reference.field_of "Mode" string_type "options") (fun _ => "d")
                  v e tr (reflect_ValueOf_string "d") []
                  HP ltac:(subst v; reflexivity) eq_refl) He Hbare).
Defined.


Lemma convert_kind_scalars_witness :
  "maybe" <> "" /\ Type_Kind bool_type = Bool /\
  convert (E := Reference.externals) bool_type "maybe" "kind" =
    (Invalid, Some (errConversion "maybe" "bool"), []).
Proof.
  split; [discriminate|]. split; [reflexivity|].
  rewrite (proj2 (proj2 (convert_kind_scalars (E := Reference.externals) bool_type "maybe"
                           ltac:(discriminate))) eq_refl).
  reflexivity.
Defined.

Lemma convert_unset_duration_witness :
  Type_String Duration_type = "time.Duration" /\ "1h30m" <> "" /\
  Reference.ParseDuration "1h30m" = (5400000000000, None) /\
  convert (E := Reference.externals) Duration_type "1h30m" "" =
    (reflect_ValueOf_Duration 5400000000000, None, []).
Proof.
  split; [reflexivity|]. split; [discriminate|]. split; [reflexivity|].
  apply (convert_unset_duration (E := Reference.externals) Duration_type "1h30m"
           5400000000000 eq_refl ltac:(discriminate) eq_refl).
Defined.

Lemma convert_slice_map_is_yaml_witness :
  let t := {| Type_String := "[]int"; Type_Kind := Slice |} in
  "[1,2,3]" <> "" /\ Type_Kind t = Slice /\ Type_String t <> "time.Duration" /\
  convert (E := Reference.externals) t "[1,2,3]" "" = (Valid t (DOther [1; 2; 3]), None, []).
Proof.
  cbv zeta. split; [discriminate|]. split; [reflexivity|]. split; [discriminate|].
  destruct (convert_slice_map_is_yaml (E := Reference.externals)
              {| Type_String := "[]int"; Type_Kind := Slice |} "[1,2,3]"
              ltac:(discriminate) (or_introl eq_refl) ltac:(discriminate))
    as (Hunset & _ & Hyaml).
  rewrite Hunset, Hyaml. reflexivity.
Defined.

(** X19 on a tag with [required] behind a [default] that does not
    convert: the flag is not set. *)
Lemma Parse_range_stops_at_error_witness :
  let v := SetType (Y := list Z) Var_zero int_type in
  Parse_range (E := Reference.externals) [("key", "db")] v =
    (SetKey (E := Reference.externals) v "db", None, []) /\
  (Parse_directive (E := Reference.externals) "default" "abc"
     (SetKey (E := Reference.externals) v "db")).1.2 = Some (errConversion "abc" "int") /\
  exists w tr,
    Parse_range (E := Reference.externals)
      [("key", "db"); ("default", "abc"); ("required", "")] v =
      (w, Some (errConversion "abc" "int"), tr) /\
    Key w = "DB" /\ Required w = false.
Proof.
  cbv zeta. split; [reflexivity|]. split; [reflexivity|].
  eexists _, _. split.
  - apply (Parse_range_stops_at_error (E := Reference.externals)
             [("key", "db")] [("required", "")] "default" "abc"
             (SetType (Y := list Z) Var_zero int_type)
             (SetKey (E := Reference.externals)
                (SetType (Y := list Z) Var_zero int_type) "db")
             [] (errConversion "abc" "int") eq_refl eq_refl).
  - split; reflexivity.
Defined.

(** ** The departures on the reference environment *)

(** C6 on the field [Port]: the reference order visits [options] before
    [required]. *)
Lemma required_directive_lost_when_options_fail_witness :
  let f := Reference.field_of "Port" int_type "required options=x" in
  map_to_list (tagParamsMap (field_Tag_env f)) = [("options", "x"); ("required", "")] /\
  Reference.absent "PORT" = "" /\
  is_Some (tagParamsMap (field_Tag_env f) !! "required") /\
  (Reference.parsed f).1.2 = Some (errConversion "x" "int") /\
  Reference.resolved f Reference.absent =
    Returns (mkVar "Port" "PORT" int_type (reflect_ValueOf_int 0) false "" Invalid [], None).
Proof.
  cbv zeta. split; [vm_compute; reflexivity|]. split; [reflexivity|].
  exact (required_directive_lost_when_options_fail (E := Reference.externals)
           "Port" Reference.absent eq_refl eq_refl).
Defined.

(** C7 on the field [Port]: the reference order visits [options] before
    [default]. *)
Lemma declared_default_lost_when_options_fail_witness :
  let f := Reference.field_of "Port" int_type "default=5 options=x" in
  map_to_list (tagParamsMap (field_Tag_env f)) = [("options", "x"); ("default", "5")] /\
  Reference.absent "PORT" = "" /\
  tagParamsMap (field_Tag_env f) !! "default" = Some "5" /\
  (Reference.parsed f).1.2 = Some (errConversion "x" "int") /\
  Reference.resolved f Reference.absent =
    Returns (mkVar "Port" "PORT" int_type (reflect_ValueOf_int 0) false "" Invalid [], None).
Proof.
  cbv zeta. split; [vm_compute; reflexivity|]. split; [reflexivity|].
  destruct (declared_default_lost_when_options_fail (E := Reference.externals)
              "Port" Reference.absent eq_refl eq_refl) as (Hd & _ & He & Hres).
  split; [exact Hd|]. split; [exact He|exact Hres].
Defined.

(** C8 on the field [Level]. *)
Lemma declared_options_unchecked_or_panic_witness :
  Reference.resolved (Reference.field_of "Level" int_type "options=1,x") (fun _ => "9") =
    Returns (mkVar "Level" "LEVEL" int_type (reflect_ValueOf_int 9) false "" Invalid [], None) /\
  Reference.resolved (Reference.field_of "Level" string_type "options=a,,b") (fun _ => "d") =
    Panics.
Proof.
  split.
  - exact (proj2 (proj2 (proj1 (declared_options_unchecked_or_panic
                                  (E := Reference.externals) Reference_range_order_perm
                                  "Level" (fun _ => "9")) eq_refl))).
  - exact (proj2 (proj2 (proj2 (declared_options_unchecked_or_panic
                                  (E := Reference.externals) Reference_range_order_perm
                                  "Level" (fun _ => "d")) eq_refl))).
Defined.

(** C10 on the field [Level] with an absent key. *)
Lemma substituted_value_check_panics_or_is_skipped_witness :
  Reference.absent "LEVEL" = "" /\
  Reference.resolved (Reference.field_of "Level" int_type "options=1,,2") Reference.absent =
    Panics /\
  Reference.resolved (Reference.field_of "Level" int_type "options=1,x") Reference.absent =
    Returns (mkVar "Level" "LEVEL" int_type (reflect_ValueOf_int 0) false "" Invalid [], None).
Proof.
  split; [reflexivity|].
  destruct (substituted_value_check_panics_or_is_skipped (E := Reference.externals)
              Reference_range_order_perm "Level" Reference.absent eq_refl)
    as [(_ & _ & _ & Hpanic) (_ & Hskip)].
  split; [exact Hpanic|exact Hskip].
Defined.
